(** * Undux store core: snapshots, wrappers, setters and emitters

    A shallow embedding of [node_modules/undux/src/index.ts].

    JavaScript objects live in a heap of property maps with a [frozen]
    flag, so that object identity, [Object.freeze] and [Object.assign] keep
    their meaning.  The classes [StoreSnapshot], [StoreSnapshotWrapper] and
    [StoreDefinition] become records; their methods become functions over an
    explicit [world] (heap, function objects, the store instance, and a trace
    of the effects the code performs).  A world holds one store instance:
    the [storeDefinition] back-reference of a snapshot is that instance.

    Subscriber handlers are small programs over the public store interface
    ([get] and [set(k)(v)]); they are run synchronously by the emitters, so a
    setter can be re-entered while it is emitting.  Handlers that subscribe
    or that assign to objects are outside this model, and so is what a
    raised exception leaves behind: a [Throw] aborts the whole call.

    Every object of the heap is a plain object: its prototype is
    [Object.prototype], whose members a property read and the [in]
    operator find when the object has no own property of that name.
    Changing a prototype, which is what an assignment to [__proto__] does,
    is outside this model. *)

From Stdlib Require Import ZArith.
From stdpp Require Import base gmap sets list strings.

Open Scope string_scope.
Open Scope list_scope.
Open Scope nat_scope.

(** ** JavaScript values and objects *)

Definition key := string.
Definition loc := positive.
Definition fref := positive.

Inductive value :=
| VUndefined
| VNull
| VBool (b : bool)
| VNum (n : Z)
| VStr (s : string)
| VObj (l : loc)
| VInherited (name : key).

#[global] Instance value_eq_dec : EqDecision value.
Proof. solve_decision. Defined.

(** A plain object: own enumerable properties and the flag set by
    [Object.freeze]. *)
Record obj := Obj { props : gmap key value; frozen : bool }.

(** The property names of [Object.prototype], which every plain object
    inherits.  [VInherited name] stands for the member found under [name]
    there. *)
Definition Object_prototype : gset key :=
  {[ "constructor"; "hasOwnProperty"; "isPrototypeOf"; "propertyIsEnumerable";
     "toLocaleString"; "toString"; "valueOf";
     "__defineGetter__"; "__defineSetter__";
     "__lookupGetter__"; "__lookupSetter__"; "__proto__" ]}.

(** [key in o] for a plain object with own properties [own]. *)
Definition js_in (own : gset key) (k : key) : bool :=
  bool_decide (k ∈ own) || bool_decide (k ∈ Object_prototype).

(** [o[key]] for a plain object with own properties [o]: the own property,
    else the member inherited from [Object.prototype], else [undefined]. *)
Definition js_lookup (o : gmap key value) (k : key) : value :=
  match o !! k with
  | Some v => v
  | None => if bool_decide (k ∈ Object_prototype) then VInherited k else VUndefined
  end.

(** [o[key]] on the object at [l].  A location that holds no object does
    not occur in the heap of a store; a read there is that of an empty
    object. *)
Definition js_get (h : gmap loc obj) (l : loc) (k : key) : value :=
  match h !! l with
  | Some o => js_lookup (props o) k
  | None => js_lookup ∅ k
  end.

(** [Object.freeze(l)]: marks the object itself; its property values are
    not visited. *)
Definition js_freeze (l : loc) (h : gmap loc obj) : gmap loc obj :=
  alter (fun o => Obj (props o) true) l h.

(** [l[k] = v].  On a frozen object the assignment is ignored (sloppy mode)
    or raises a TypeError (strict mode); the boolean of the result tells
    whether it raised.  The heap is unchanged in both cases.  On an object
    that is not frozen the assignment defines or overwrites the own
    property [k]; this is what the code does for every [k] but
    [__proto__]. *)
Definition js_assign_prop (strict : bool) (l : loc) (k : key) (v : value)
    (h : gmap loc obj) : gmap loc obj * bool :=
  match h !! l with
  | Some o =>
      if frozen o then (h, strict)
      else (<[l := Obj (<[k := v]> (props o)) false]> h, false)
  | None => (h, true)
  end.

(** [Object.assign({}, src1, ..., srcn)]: a new, unfrozen object whose
    properties are those of the sources, later sources winning. *)
Definition merge_sources (srcs : list (gmap key value)) : gmap key value :=
  foldl (fun acc s => s ∪ acc) ∅ srcs.

Definition Object_assign_new (srcs : list (gmap key value))
    (h : gmap loc obj) : loc * gmap loc obj :=
  let l := fresh (dom h) in
  (l, <[l := Obj (merge_sources srcs) false]> h).

(** ** Change events and subscriber programs *)

(** [Undux<State>[K]]: the payload of the all-fields channel. *)
Record Undux := Ev { ev_key : key; previousValue : value; ev_value : value }.

(** What a subscriber's handler does with the store, synchronously:
    [store.get(k)] feeding the rest of the handler, or [store.set(k)(v)]. *)
Inductive prog :=
| Return
| StoreGet (k : key) (cont : value -> prog)
| StoreSet (k : key) (v : value) (cont : prog).

Inductive topic := Topic (k : key) | ALL.

#[global] Instance topic_eq_dec : EqDecision topic.
Proof. solve_decision. Defined.

(** Modelled from the spec: the [Emitter] class of typed-rx-emitter is not
    part of the sources.  Its state is the call chain of the topics being
    emitted on the current call stack and the subscribers in subscription
    order; [isDevMode] is the option it was constructed with. *)
Record Emitter (P : Type) := MkEmitter {
  isDevMode : bool;
  callChain : list key;
  observers : list (topic * (P -> prog))
}.
Arguments MkEmitter {P} _ _ _.
Arguments isDevMode {P} _.
Arguments callChain {P} _.
Arguments observers {P} _.

(** ** The classes *)

Record StoreSnapshot := MkSnapshot { state : loc }.

#[global] Instance StoreSnapshot_eq_dec : EqDecision StoreSnapshot.
Proof. solve_decision. Defined.

Record StoreDefinition := MkStore {
  storeSnapshot : StoreSnapshot;
  alls : Emitter Undux;
  emitter : Emitter value;
  setters : gmap key fref
}.

(** The effects the code performs, in order: the assignment to
    [this.storeSnapshot], a call of [emit] on the per-field or on the
    all-fields emitter, the notification of one subscriber (with the
    snapshot that is current at that moment), and a line written with
    [console.error].  Each entry is tagged with the number of emissions in
    flight when it happened. *)
Inductive action :=
| Swap (s : StoreSnapshot)
| EmitField (k : key) (v : value)
| EmitAll (k : key) (e : Undux)
| Deliver (t : topic) (k : key) (seen : StoreSnapshot)
| ConsoleError (msg : string).

Record world := MkWorld {
  heap : gmap loc obj;
  funs : gmap fref key;
  store : StoreDefinition;
  console : list (nat * action)
}.

Definition depth (w : world) : nat :=
  length (callChain (emitter (store w))) + length (callChain (alls (store w))).

Definition record (a : action) (w : world) : world :=
  MkWorld (heap w) (funs w) (store w) (console w ++ [(depth w, a)]).

Definition with_heap (h : gmap loc obj) (w : world) : world :=
  MkWorld h (funs w) (store w) (console w).

Definition with_storeSnapshot (s : StoreSnapshot) (w : world) : world :=
  MkWorld (heap w) (funs w)
    (MkStore s (alls (store w)) (emitter (store w)) (setters (store w)))
    (console w).

(** *** StoreSnapshot *)

Definition StoreSnapshot_get (s : StoreSnapshot) (k : key) (w : world) : value :=
  js_get (heap w) (state s) k.

(** [Object.freeze(this.state)]: the state object itself is frozen and
    returned. *)
Definition StoreSnapshot_getState (s : StoreSnapshot) (w : world) : loc * world :=
  (state s, with_heap (js_freeze (state s) (heap w)) w).

(** *** StoreDefinition: the non-emitting methods *)

Definition StoreDefinition_get (k : key) (w : world) : value :=
  StoreSnapshot_get (storeSnapshot (store w)) k w.

(** [this.setters[key]]: [Some f] when it is the closure [f] that the table
    holds at [key], [None] when [key] is no key of the table.  The code
    then returns [undefined], or, when [key] is the name of a member of
    [Object.prototype], the member that the table inherits under that
    name, which is not a setter of the store. *)
Definition StoreDefinition_set (k : key) (w : world) : option fref :=
  setters (store w) !! k.

Definition StoreDefinition_getCurrentSnapshot (w : world) : StoreSnapshot :=
  storeSnapshot (store w).

Definition StoreDefinition_getState (w : world) : loc * world :=
  StoreSnapshot_getState (storeSnapshot (store w)) w.

Definition StoreDefinition_toStore (w : world) : StoreSnapshot :=
  storeSnapshot (store w).

(** The stream handed out by [on(key)] / [onAll()]: which emitter of the
    store it belongs to, and which topic it carries. *)
Inductive emitter_name := TheEmitter | TheAlls.

Record Observable := MkObservable { ob_emitter : emitter_name; ob_topic : topic }.

(** Modelled from the spec: [Emitter.on] and [Emitter.all] of
    typed-rx-emitter are not part of the sources.  [on(topic)] is the
    stream of the values emitted on that topic, [all()] the stream of what
    is emitted on any topic. *)
Definition Emitter_on (e : emitter_name) (k : key) : Observable :=
  MkObservable e (Topic k).

Definition Emitter_all (e : emitter_name) : Observable :=
  MkObservable e ALL.

Definition StoreDefinition_on (k : key) : Observable := Emitter_on TheEmitter k.
Definition StoreDefinition_onAll : Observable := Emitter_all TheAlls.

Definition StoreSnapshot_set (s : StoreSnapshot) (k : key) (w : world) : option fref :=
  StoreDefinition_set k w.

Definition StoreSnapshot_on (s : StoreSnapshot) (k : key) : Observable :=
  StoreDefinition_on k.

Definition StoreSnapshot_onAll (s : StoreSnapshot) : Observable :=
  StoreDefinition_onAll.

(** *** StoreSnapshotWrapper

    The two access-recording callbacks belong to the consumer; they act on
    the consumer's own state [C]. *)
Record StoreSnapshotWrapper (C : Type) := MkWrapper {
  snapshot : StoreSnapshot;
  onGetOrSet : key -> C -> C;
  onGetAll : C -> C;
  subscribedFields : option (gset key);
  isSubscribedToAllFields : bool
}.
Arguments MkWrapper {C} _ _ _ _ _.
Arguments snapshot {C} _.
Arguments onGetOrSet {C} _ _ _.
Arguments onGetAll {C} _ _.
Arguments subscribedFields {C} _.
Arguments isSubscribedToAllFields {C} _.

(** [this.subscribedFields && !(key in this.subscribedFields)]: [null] is
    falsy, an object (even an empty one) is truthy.  The record of
    subscribed fields is a plain object that maps keys to [true]; it is
    kept as the set of its own keys, and [in] also finds the names it
    inherits. *)
Definition missed_subscription (fields : option (gset key)) (k : key) : bool :=
  match fields with
  | Some s => negb (js_in s k)
  | None => false
  end.

Definition StoreSnapshotWrapper_get {C} (wr : StoreSnapshotWrapper C)
    (k : key) (w : world) (c : C) : value * C :=
  if negb (isSubscribedToAllFields wr) && missed_subscription (subscribedFields wr) k
  then
    let c' := onGetOrSet wr k c in
    (StoreDefinition_get k w, c')
  else (StoreSnapshot_get (snapshot wr) k w, c).

Definition StoreSnapshotWrapper_set {C} (wr : StoreSnapshotWrapper C)
    (k : key) (w : world) (c : C) : option fref * C :=
  let c' := onGetOrSet wr k c in
  (StoreSnapshot_set (snapshot wr) k w, c').

Definition StoreSnapshotWrapper_on {C} (wr : StoreSnapshotWrapper C)
    (k : key) (c : C) : Observable * C :=
  (StoreSnapshot_on (snapshot wr) k, c).

Definition StoreSnapshotWrapper_onAll {C} (wr : StoreSnapshotWrapper C)
    (c : C) : Observable * C :=
  (StoreSnapshot_onAll (snapshot wr), c).

Definition StoreSnapshotWrapper_getState {C} (wr : StoreSnapshotWrapper C)
    (w : world) (c : C) : loc * world * C :=
  let c' := onGetAll wr c in
  (StoreSnapshot_getState (snapshot wr) w, c').

(** ** Emission and the setters *)

(** The result of running code that may raise or, in this model, run out of
    fuel. *)
Inductive outcome (A : Type) :=
| Ok (a : A)
| Throw (msg : string)
| OutOfFuel.
Arguments Ok {A} _.
Arguments Throw {A} _.
Arguments OutOfFuel {A}.

#[global] Instance outcome_bind : MBind outcome := fun A B f m =>
  match m with
  | Ok a => f a
  | Throw msg => Throw msg
  | OutOfFuel => OutOfFuel
  end.

(** The two emitters of a store, indexed by their payload type. *)
Inductive channel : Type -> Type :=
| Fields : channel value
| Alls : channel Undux.

Definition emitter_of {P} (c : channel P) (w : world) : Emitter P :=
  match c in channel P return Emitter P with
  | Fields => emitter (store w)
  | Alls => alls (store w)
  end.

Definition with_chain {P} (chain : list key) (e : Emitter P) : Emitter P :=
  MkEmitter (isDevMode e) chain (observers e).

Definition with_callChain {P} (c : channel P) (chain : list key) (w : world) : world :=
  match c with
  | Fields =>
      MkWorld (heap w) (funs w)
        (MkStore (storeSnapshot (store w)) (alls (store w))
           (with_chain chain (emitter (store w))) (setters (store w)))
        (console w)
  | Alls =>
      MkWorld (heap w) (funs w)
        (MkStore (storeSnapshot (store w)) (with_chain chain (alls (store w)))
           (emitter (store w)) (setters (store w)))
        (console w)
  end.

Definition emit_action {P} (c : channel P) (k : key) : P -> action :=
  match c in channel P return P -> action with
  | Fields => EmitField k
  | Alls => EmitAll k
  end.

Definition matches (t : topic) (k : key) : bool :=
  match t with
  | Topic k' => bool_decide (k' = k)
  | ALL => true
  end.

Definition nl : string := String (Ascii.ascii_of_nat 10) EmptyString.

Definition CYCLE_ERROR_MESSAGE : string :=
  "[undux] Error: Cyclical dependency detected. "
  +:+ "This may cause a stack overflow unless you fix it. " +:+ nl
  +:+ "The culprit is the following sequence of .set calls, "
  +:+ "called from one or more of your Undux Effects: ".

(** [emitterOptions.onCycle]: [console.error(CYCLE_ERROR_MESSAGE + chain.join(' -> '))]. *)
Definition onCycle (chain : list key) (w : world) : world :=
  record (ConsoleError (CYCLE_ERROR_MESSAGE +:+ String.concat " -> " chain)) w.

Definition props_of (h : gmap loc obj) (l : loc) : gmap key value :=
  match h !! l with
  | Some o => props o
  | None => ∅
  end.

Section Emission.
(** Calling a function object with one argument, as a handler can. *)
Variable call : fref -> value -> world -> outcome world.

(** Running a handler: [store.set(k)] of a key that has no setter and is
    not the name of a member of [Object.prototype] is [undefined], and
    calling it raises.  The handlers considered below set fields of the
    store only. *)
Fixpoint run (p : prog) (w : world) : outcome world :=
  match p with
  | Return => Ok w
  | StoreGet k cont => run (cont (StoreDefinition_get k w)) w
  | StoreSet k v cont =>
      match StoreDefinition_set k w with
      | Some f => w' ← call f v w; run cont w'
      | None => Throw "TypeError: store.set(...) is not a function"
      end
  end.

(** Modelled from the spec: delivery by the emitter is synchronous, to
    all current subscribers of the topic, in subscription order. *)
Fixpoint deliver {P} (obs : list (topic * (P -> prog))) (k : key)
    (payload : P) (w : world) : outcome world :=
  match obs with
  | [] => Ok w
  | (t, handler) :: rest =>
      if matches t k then
        w' ← run (handler payload)
               (record (Deliver t k (storeSnapshot (store w))) w);
        deliver rest k payload w'
      else deliver rest k payload w
  end.

(** Modelled from the spec: [Emitter.emit] of typed-rx-emitter is not part
    of the sources.  If the topic is already in the active call chain the
    diagnostic is reported with the full chain and the emission is
    aborted; otherwise the topic is pushed, the subscribers are notified,
    and the topic is popped. *)
Definition Emitter_emit {P} (c : channel P) (k : key) (payload : P)
    (w : world) : outcome world :=
  let w := record (emit_action c k payload) w in
  let chain := callChain (emitter_of c w) in
  if bool_decide (k ∈ chain) then Ok (onCycle (chain ++ [k]) w)
  else
    w' ← deliver (observers (emitter_of c w)) k payload
           (with_callChain c (chain ++ [k]) w);
    Ok (with_callChain c (removelast (callChain (emitter_of c w'))) w').

(** The state of the store once the setter has replaced the snapshot:
    [this.storeSnapshot = new StoreSnapshot(Object.assign({},
    this.storeSnapshot.getState(), { [key]: value }), this)]. *)
Definition replace_snapshot (k : key) (v : value) (w : world) : world :=
  let '(st, w1) := StoreSnapshot_getState (storeSnapshot (store w)) w in
  let '(l, h2) := Object_assign_new [props_of (heap w1) st; {[k := v]}] (heap w1) in
  record (Swap (MkSnapshot l)) (with_storeSnapshot (MkSnapshot l) (with_heap h2 w1)).

(** The closure cached for [key] in the constructor. *)
Definition setter (k : key) (v : value) (w : world) : outcome world :=
  let previousValue := StoreSnapshot_get (storeSnapshot (store w)) k w in
  let w1 := replace_snapshot k v w in
  w2 ← Emitter_emit Fields k v w1;
  Emitter_emit Alls k (Ev k previousValue v) w2.
End Emission.

(** Calling the function object [f]: the setters are the only function
    objects of a world.  A handler that calls a setter re-enters this
    function; [fuel] bounds the nesting. *)
Fixpoint invoke (fuel : nat) (f : fref) (v : value) (w : world) : outcome world :=
  match fuel with
  | O => OutOfFuel
  | S fuel' =>
      match funs w !! f with
      | Some k => setter (invoke fuel') k v w
      | None => Throw "TypeError: not a function"
      end
  end.

(** [store.set(k)(v)] from the top level.  For a key without a setter
    that is the name of a member of [Object.prototype] the call goes to
    that member, which does not touch the store; what it returns is not
    modelled, and no statement below is about such a call. *)
Definition set_field (fuel : nat) (k : key) (v : value) (w : world) : outcome world :=
  match StoreDefinition_set k w with
  | Some f => invoke fuel f v w
  | None => Throw "TypeError: store.set(...) is not a function"
  end.

(** *** Construction *)

(** The callback that the constructor passes to [mapValues], at one key: it
    creates one function object, which captures [key]. *)
Definition alloc_setter (acc : gmap key fref * gmap fref key) (kv : key * value)
    : gmap key fref * gmap fref key :=
  let f := fresh (dom acc.2) in
  (<[kv.1 := f]> acc.1, <[f := kv.1]> acc.2).

(** Modelled from the spec: [mapValues] of ./utils is not part of the
    sources.  It builds a table with one entry per own key of the object,
    calling the callback once per key. *)
Definition mapValues_setters (o : gmap key value) : gmap key fref * gmap fref key :=
  foldl alloc_setter (∅, ∅) (map_to_list o).

Record Options := MkOptions { opt_isDevMode : bool }.

Definition DEFAULT_OPTIONS : Options := MkOptions false.

(** [new StoreDefinition(state, options)], the initial state object being
    at [state0] in [h]. *)
Definition new_StoreDefinition (state0 : loc) (options : Options)
    (h : gmap loc obj) : world :=
  let '(table, fs) := mapValues_setters (props_of h state0) in
  MkWorld h fs
    (MkStore (MkSnapshot state0)
       (MkEmitter (opt_isDevMode options) [] [])
       (MkEmitter (opt_isDevMode options) [] [])
       table)
    [].

Definition createStore (initialState : loc) (options : Options)
    (h : gmap loc obj) : world :=
  new_StoreDefinition initialState options h.

Definition with_observers {P} (obs : list (topic * (P -> prog))) (e : Emitter P) : Emitter P :=
  MkEmitter (isDevMode e) (callChain e) obs.

(** Modelled from the spec: [observable.subscribe(handler)] on a stream of
    the per-field emitter or of the all-fields emitter adds the handler
    after the current subscribers. *)
Definition subscribe {P} (c : channel P) (t : topic) (handler : P -> prog)
    (w : world) : world :=
  match c in channel P return (P -> prog) -> world with
  | Fields => fun handler =>
      MkWorld (heap w) (funs w)
        (MkStore (storeSnapshot (store w)) (alls (store w))
           (with_observers (observers (emitter (store w)) ++ [(t, handler)])
              (emitter (store w)))
           (setters (store w)))
        (console w)
  | Alls => fun handler =>
      MkWorld (heap w) (funs w)
        (MkStore (storeSnapshot (store w))
           (with_observers (observers (alls (store w)) ++ [(t, handler)])
              (alls (store w)))
           (emitter (store w)) (setters (store w)))
        (console w)
  end handler.

(** ** Well-formed worlds and handlers *)

Definition fields (w : world) : gset key := dom (setters (store w)).

(** A snapshot is fully built when its state object exists and carries
    every field of the store. *)
Definition fully_built (w : world) (s : StoreSnapshot) : Prop :=
  ∃ o, heap w !! state s = Some o ∧ fields w ⊆ dom (props o).

Definition chain_ok (w : world) (chain : list key) : Prop :=
  NoDup chain ∧ ∀ k, k ∈ chain → k ∈ fields w.

Record wf (w : world) : Prop := MkWf {
  wf_state : fully_built w (storeSnapshot (store w));
  wf_funs : ∀ k f, setters (store w) !! k = Some f → funs w !! f = Some k;
  wf_chain_emitter : chain_ok w (callChain (emitter (store w)));
  wf_chain_alls : chain_ok w (callChain (alls (store w)))
}.

(** A handler is well typed for [F] when every [set] it can perform is on a
    key of [F]. *)
Fixpoint prog_ok (F : gset key) (p : prog) : Prop :=
  match p with
  | Return => True
  | StoreGet _ cont => ∀ v, prog_ok F (cont v)
  | StoreSet k _ cont => k ∈ F ∧ prog_ok F cont
  end.

Definition handlers_ok {P} (F : gset key) (obs : list (topic * (P -> prog))) : Prop :=
  Forall (fun th => ∀ payload, prog_ok F (th.2 payload)) obs.

Definition obs_ok (F : gset key) (w : world) : Prop :=
  handlers_ok F (observers (emitter (store w)))
  ∧ handlers_ok F (observers (alls (store w))).

Definition is_setter_action (a : action) : bool :=
  match a with
  | Swap _ | EmitField _ _ | EmitAll _ _ => true
  | _ => false
  end.

(** The actions performed by a setter invocation running at depth [d]
    itself, as opposed to the ones of the handlers it triggers. *)
Definition own_action (d : nat) (e : nat * action) : bool :=
  is_setter_action e.2 && bool_decide (e.1 = d).

Definition seen_ok (w : world) (a : action) : Prop :=
  match a with
  | Swap s | Deliver _ _ s => fully_built w s
  | _ => True
  end.

Definition entry_ok (w : world) (e : nat * action) : Prop :=
  e.1 ≤ 2 * size (fields w) ∧ seen_ok w e.2.

Definition is_deliver (a : action) : bool :=
  match a with
  | Deliver _ _ _ => true
  | _ => false
  end.

(** An entry made while at least [d] emissions are in flight; a delivery
    is made with the emission it belongs to in flight, hence above [d]. *)
Definition entry_above (d : nat) (e : nat * action) : Prop :=
  d ≤ e.1 ∧ (is_deliver e.2 = true → d < e.1).

(** An entry made by the handlers notified of an emission that started at
    depth [d], or the record of such a notification. *)
Definition entry_inside (d : nat) (e : nat * action) : Prop := S d ≤ e.1.

(** The topics of the subscriptions notified with exactly [d] emissions in
    flight, in order. *)
Definition delivered_at (d : nat) (e : nat * action) : option topic :=
  match e.2 with
  | Deliver t _ _ => if decide (e.1 = d) then Some t else None
  | _ => None
  end.

Definition deliveries (d : nat) (t : list (nat * action)) : list topic :=
  omap (delivered_at d) t.

(** The snapshot that was current at the first entry of a trace, when that
    entry is a notification. *)
Definition first_seen (t : list (nat * action)) : option StoreSnapshot :=
  match t with
  | (_, Deliver _ _ s) :: _ => Some s
  | _ => None
  end.

(** The subscriptions of an emitter that a change of [k] concerns. *)
Definition subscribed {P} (k : key) (obs : list (topic * (P -> prog))) : list topic :=
  (filter (fun th => matches th.1 k = true) obs).*1.

(** What a completed nested computation leaves as it found it: the
    function objects, the setter table, both emitters, the properties of
    every existing object, and the fields that no handler sets.  Its trace
    entries satisfy [Q]. *)
Record frame (F : gset key) (Q : nat * action -> Prop) (w w' : world) : Prop := MkFrame {
  fr_funs : funs w' = funs w;
  fr_setters : setters (store w') = setters (store w);
  fr_emitter : emitter (store w') = emitter (store w);
  fr_alls : alls (store w') = alls (store w);
  fr_heap : ∀ l o, heap w !! l = Some o →
            ∃ o', heap w' !! l = Some o' ∧ props o' = props o;
  fr_get : ∀ j, j ∉ F → StoreDefinition_get j w' = StoreDefinition_get j w;
  fr_wf : wf w';
  fr_console : ∃ t, console w' = console w ++ t
               ∧ Forall (fun e => Q e ∧ entry_ok w' e) t
}.

(** The trace entry left by [onCycle] when [k] is emitted on [c] while it is
    already in the call chain of [c]. *)
Definition cycle_report {P} (c : channel P) (k : key) (w : world) : nat * action :=
  (depth w,
   ConsoleError (CYCLE_ERROR_MESSAGE
                 +:+ String.concat " -> " (callChain (emitter_of c w) ++ [k]))).

(** The address of the state object that the next setter invocation
    allocates. *)
Definition new_state (w : world) : loc :=
  fresh (dom (js_freeze (state (storeSnapshot (store w))) (heap w))).

(** What is assumed of the setter invocations made by handlers: with [n]
    units of fuel they complete, as frame steps. *)
Definition call_ok (call : fref -> value -> world -> outcome world)
    (F : gset key) (n : nat) : Prop :=
  ∀ w f v k,
    wf w → obs_ok F w → F ⊆ fields w →
    funs w !! f = Some k → k ∈ F →
    2 * size (fields w) < depth w + n →
    ∃ w', call f v w = Ok w' ∧ frame F (entry_above (depth w)) w w'.

(** The setter table and the function objects are the same in [w']. *)
Definition stable (w w' : world) : Prop :=
  setters (store w') = setters (store w) ∧ funs w' = funs w.

(** What client code can do to a world between two observations. *)
Inductive step : world -> world -> Prop :=
| step_subscribe {P} (c : channel P) t handler w :
    step w (subscribe c t handler w)
| step_set fuel k v w w' :
    set_field fuel k v w = Ok w' → step w w'
| step_getState w :
    step w (StoreDefinition_getState w).2
| step_assign strict l k v w :
    step w (with_heap (js_assign_prop strict l k v (heap w)).1 w).

(** ** A small store, with and without effects *)

Definition demo_heap : gmap loc obj :=
  {[ 1%positive := Obj {[ "count" := VNum 0; "name" := VStr "x" ]} false ]}.

Definition demo_store : world := createStore 1%positive DEFAULT_OPTIONS demo_heap.

(** [createStore({valueOf: 0})]: a store with a field named like a member
    of [Object.prototype]. *)
Definition valueOf_heap : gmap loc obj :=
  {[ 1%positive := Obj {[ "valueOf" := VNum 0 ]} false ]}.

Definition valueOf_store : world := createStore 1%positive DEFAULT_OPTIONS valueOf_heap.

(** [store.on('count').subscribe(v => { if (v === 1) store.set('count')(2) })] *)
Definition bump_effect (v : value) : prog :=
  if decide (v = VNum 1) then StoreSet "count" (VNum 2) Return else Return.

(** [store.on('count').subscribe(_ => store.set('name')('y'))] *)
Definition rename_effect (_ : value) : prog :=
  StoreSet "name" (VStr "y") Return.

(** [store.on('count').subscribe(v => store.set('count')(v))] *)
Definition loop_effect (v : value) : prog :=
  StoreSet "count" v Return.

Definition bump_store : world := subscribe Fields (Topic "count") bump_effect demo_store.
Definition rename_store : world := subscribe Fields (Topic "count") rename_effect demo_store.
Definition loop_store : world := subscribe Fields (Topic "count") loop_effect demo_store.

(** [loop_store] as a handler of [count] finds it: while the change of
    [count] is being emitted on the per-field emitter. *)
Definition loop_store_emitting : world := with_callChain Fields ["count"] loop_store.

(** [bump_store] after [set('count')(1)]. *)
Definition bump_store_after_set : world :=
  match set_field 5 "count" (VNum 1) bump_store with
  | Ok w => w
  | _ => bump_store
  end.

(** [store.on('count').subscribe(_ => {})] and
    [store.onAll().subscribe(_ => {})]: observers that only watch. *)
Definition watched_store : world :=
  subscribe Alls ALL (fun _ => Return)
    (subscribe Fields (Topic "count") (fun _ => Return) demo_store).

(** A consumer that counts the calls of its access-recording callbacks. *)
Definition counting_wrapper (s : StoreSnapshot) (fields : option (gset key))
    (all : bool) : StoreSnapshotWrapper nat :=
  MkWrapper s (fun _ c => S c) (fun c => S c) fields all.

(** ** Histories *)

(** The keys of the current state object. *)
Definition shape (w : world) : gset key :=
  dom (props_of (heap w) (state (storeSnapshot (store w)))).

(** Each setter of the table is the function object of its key, and that
    key is a key of the current state. *)
Definition keyed (w : world) : Prop :=
  ∀ k f, setters (store w) !! k = Some f → funs w !! f = Some k ∧ k ∈ shape w.

(** What running code of the store does to the heap and to the current
    snapshot, whether it re-enters the setters or not: objects stay, with
    their properties; frozen objects stay frozen; the current snapshot is
    the same one or sits on an object that did not exist before; the keys
    of the current state are the same. *)
Record grows (w w' : world) : Prop := MkGrows {
  gr_funs : funs w' = funs w;
  gr_setters : setters (store w') = setters (store w);
  gr_heap : ∀ l o, heap w !! l = Some o →
            ∃ o', heap w' !! l = Some o' ∧ props o' = props o
                  ∧ (frozen o = true → frozen o' = true);
  gr_snapshot : storeSnapshot (store w') = storeSnapshot (store w)
                ∨ heap w !! state (storeSnapshot (store w')) = None;
  gr_shape : shape w' = shape w
}.

(** The value that a trace entry sets [j] to.  Every invocation of a
    setter, nested or not, calls [emit] on the per-field emitter right
    after it has replaced the snapshot, so these entries are the [set]s of
    [j] that took place. *)
Definition set_of (j : key) (e : nat * action) : option value :=
  match e.2 with
  | EmitField k v => if decide (k = j) then Some v else None
  | _ => None
  end.

(** The value of the last [set] of [j] in a trace, if there is one. *)
Definition last_set (j : key) (t : list (nat * action)) : option value :=
  last (omap (set_of j) t).

Definition swap_of (e : nat * action) : option StoreSnapshot :=
  match e.2 with
  | Swap s => Some s
  | _ => None
  end.

(** The last snapshot installed in a trace, if there is one. *)
Definition last_swap (t : list (nat * action)) : option StoreSnapshot :=
  last (omap swap_of t).

(** The store follows its trace: between [w] and [w'] each field holds the
    value of its last [set], or its value in [w] when it was not set, and
    the current snapshot is the last one installed. *)
Definition tracked (w w' : world) : Prop :=
  ∃ t, console w' = console w ++ t
       ∧ (∀ j, StoreDefinition_get j w'
               = default (StoreDefinition_get j w) (last_set j t))
       ∧ storeSnapshot (store w')
         = default (storeSnapshot (store w)) (last_swap t).

(** What a client does with a store between two observations, its handlers
    setting keys of [F] only. *)
Inductive client_step (F : gset key) : world -> world -> Prop :=
| client_subscribe {P} (c : channel P) t (handler : P -> prog) w :
    (∀ payload, prog_ok F (handler payload)) →
    client_step F w (subscribe c t handler w)
| client_set fuel k v w w' :
    set_field fuel k v w = Ok w' → client_step F w w'
| client_getState w :
    client_step F w (StoreDefinition_getState w).2.

(** [l[k] = v] made by client code, in sloppy or in strict mode. *)
Definition assign_prop (strict : bool) (l : loc) (k : key) (v : value)
    (w : world) : world :=
  with_heap (js_assign_prop strict l k v (heap w)).1 w.

(** A store in use, between two calls: well formed, its handlers setting
    keys of [F] only, no emission in flight, and [K] both the keys that
    have a setter and the keys of the current state. *)
Definition at_rest (F K : gset key) (w : world) : Prop :=
  wf w ∧ obs_ok F w ∧ F ⊆ K ∧ depth w = 0 ∧ fields w = K ∧ shape w = K.

(** Every object of [w] is in [w'] with the same properties. *)
Definition keeps_objects (w w' : world) : Prop :=
  ∀ l o, heap w !! l = Some o → ∃ o', heap w' !! l = Some o' ∧ props o' = props o.

(** [bump_store] seen by a consumer that is subscribed to [count] and holds
    the snapshot that is current before any [set]. *)
Definition subscribed_wrapper : StoreSnapshotWrapper nat :=
  counting_wrapper (storeSnapshot (store bump_store)) (Some {["count"]}) false.

(** * Proofs *)

(** ** Frames *)

Lemma frame_fields F w w' {Q} : frame F Q w w' → fields w' = fields w.
Proof. intros H. unfold fields. by rewrite (fr_setters _ _ _ _ H). Qed.

Lemma frame_depth F w w' {Q} : frame F Q w w' → depth w' = depth w.
Proof.
  intros H. unfold depth. by rewrite (fr_emitter _ _ _ _ H), (fr_alls _ _ _ _ H).
Qed.

Lemma frame_obs_ok F w w' {Q} : frame F Q w w' → obs_ok F w → obs_ok F w'.
Proof.
  intros H [H1 H2]. unfold obs_ok.
  by rewrite (fr_emitter _ _ _ _ H), (fr_alls _ _ _ _ H).
Qed.

Lemma fully_built_mono w w' s :
  fields w' = fields w →
  (∀ l o, heap w !! l = Some o → ∃ o', heap w' !! l = Some o' ∧ props o' = props o) →
  fully_built w s → fully_built w' s.
Proof.
  intros Hf Hh (o & Ho & Hd). destruct (Hh _ _ Ho) as (o' & Ho' & Hp).
  exists o'. split; [done|]. by rewrite Hp, Hf.
Qed.

Lemma entry_ok_mono w w' e :
  fields w' = fields w →
  (∀ l o, heap w !! l = Some o → ∃ o', heap w' !! l = Some o' ∧ props o' = props o) →
  entry_ok w e → entry_ok w' e.
Proof.
  intros Hf Hh [Hd He]. split; [by rewrite Hf|].
  unfold seen_ok in *. destruct (e.2); eauto using fully_built_mono.
Qed.

Lemma frame_refl F Q w : wf w → frame F Q w w.
Proof.
  intros Hw. constructor; eauto.
  exists []. by rewrite app_nil_r.
Qed.

Lemma frame_trans F Q w1 w2 w3 : frame F Q w1 w2 → frame F Q w2 w3 → frame F Q w1 w3.
Proof.
  intros H12 H23. constructor.
  - by rewrite (fr_funs _ _ _ _ H23), (fr_funs _ _ _ _ H12).
  - by rewrite (fr_setters _ _ _ _ H23), (fr_setters _ _ _ _ H12).
  - by rewrite (fr_emitter _ _ _ _ H23), (fr_emitter _ _ _ _ H12).
  - by rewrite (fr_alls _ _ _ _ H23), (fr_alls _ _ _ _ H12).
  - intros l o Ho. destruct (fr_heap _ _ _ _ H12 _ _ Ho) as (o2 & Ho2 & Hp2).
    destruct (fr_heap _ _ _ _ H23 _ _ Ho2) as (o3 & Ho3 & Hp3).
    exists o3. split; [done|congruence].
  - intros j Hj. by rewrite (fr_get _ _ _ _ H23 j Hj), (fr_get _ _ _ _ H12 j Hj).
  - exact (fr_wf _ _ _ _ H23).
  - destruct (fr_console _ _ _ _ H12) as (t1 & E1 & A1).
    destruct (fr_console _ _ _ _ H23) as (t2 & E2 & A2).
    exists (t1 ++ t2). split.
    + by rewrite E2, E1, app_assoc.
    + apply Forall_app. split; [|done].
      eapply Forall_impl; [exact A1|]. intros e [Hd He]. split; [done|].
      eapply entry_ok_mono; [| |exact He].
      * by apply (frame_fields F w2 w3 H23).
      * apply (fr_heap _ _ _ _ H23).
Qed.

Lemma frame_weaken F (Q Q' : nat * action -> Prop) w w' :
  (∀ e, Q e → Q' e) → frame F Q w w' → frame F Q' w w'.
Proof.
  intros HQ [H1 H2 H3 H4 H5 H6 H7 (t & Et & At)]. constructor; try done.
  exists t. split; [done|]. eapply Forall_impl; [exact At|].
  intros e [He1 He2]. split; [by apply HQ|done].
Qed.

Lemma entry_above_inside d e : entry_above (S d) e → entry_inside d e.
Proof. by intros [H _]. Qed.

Lemma entry_inside_above d e : entry_inside d e → entry_above d e.
Proof. unfold entry_inside, entry_above. intros H. split; lia. Qed.

Lemma entry_inside_not_own d e : entry_inside d e → own_action d e = false.
Proof.
  unfold entry_inside, own_action. intros H.
  rewrite (bool_decide_eq_false_2 (e.1 = d)) by lia. apply andb_false_r.
Qed.

Lemma deliveries_app d t1 t2 :
  deliveries d (t1 ++ t2) = deliveries d t1 ++ deliveries d t2.
Proof. apply omap_app. Qed.

Lemma deliveries_above d t :
  Forall (entry_above d) t → deliveries d t = [].
Proof.
  induction 1 as [|[d' a] t [H1 H2] _ IH]; [done|].
  unfold deliveries in *. cbn. rewrite IH. unfold delivered_at. cbn in *.
  destruct a; try done. case_decide; [|done]. specialize (H2 eq_refl). lia.
Qed.
(** ** The snapshot replacement *)

Lemma js_lookup_own (o : gmap key value) k :
  k ∈ dom o → js_lookup o k = default VUndefined (o !! k).
Proof. intros [v Hv]%elem_of_dom. unfold js_lookup. by rewrite Hv. Qed.

Lemma js_lookup_not_own (o : gmap key value) k :
  k ∉ dom o →
  js_lookup o k = if decide (k ∈ Object_prototype) then VInherited k else VUndefined.
Proof.
  intros Hk%not_elem_of_dom. unfold js_lookup. rewrite Hk.
  destruct (decide (k ∈ Object_prototype));
    [by rewrite bool_decide_eq_true_2|by rewrite bool_decide_eq_false_2].
Qed.

Lemma merge_sources_insert (m : gmap key value) k v :
  merge_sources [m; {[k := v]}] = <[k := v]> m.
Proof.
  unfold merge_sources. simpl. rewrite (right_id_L ∅ (∪)).
  by rewrite insert_union_singleton_l.
Qed.

Lemma replace_snapshot_eq k v w :
  replace_snapshot k v w =
  MkWorld
    (<[new_state w :=
         Obj (<[k := v]> (props_of (heap w) (state (storeSnapshot (store w))))) false]>
       (js_freeze (state (storeSnapshot (store w))) (heap w)))
    (funs w)
    (MkStore (MkSnapshot (new_state w)) (alls (store w)) (emitter (store w))
       (setters (store w)))
    (console w ++ [(depth w, Swap (MkSnapshot (new_state w)))]).
Proof.
  unfold replace_snapshot, StoreSnapshot_getState, Object_assign_new, new_state.
  cbn -[merge_sources fresh].
  rewrite merge_sources_insert.
  unfold record, with_storeSnapshot, with_heap, depth. cbn -[fresh].
  do 3 f_equal.
  unfold props_of, js_freeze. rewrite lookup_alter_eq.
  by destruct (heap w !! _).
Qed.

Lemma new_state_fresh w : heap w !! new_state w = None.
Proof.
  unfold new_state, js_freeze. apply not_elem_of_dom.
  rewrite <- (dom_alter_L (fun o => Obj (props o) true) (heap w)
                (state (storeSnapshot (store w)))).
  apply is_fresh.
Qed.

Lemma replace_snapshot_heap k v w l o :
  heap w !! l = Some o →
  ∃ o', heap (replace_snapshot k v w) !! l = Some o' ∧ props o' = props o.
Proof.
  intros Ho. rewrite replace_snapshot_eq. cbn -[fresh].
  assert (l ≠ new_state w) as Hne.
  { intros ->. rewrite new_state_fresh in Ho. done. }
  rewrite lookup_insert_ne by done.
  unfold js_freeze. rewrite lookup_alter. case_decide; subst; rewrite Ho; eauto.
Qed.

(** After the replacement the store reads [v] at [k] and its previous value
    everywhere else. *)
Lemma replace_snapshot_get k v w j :
  StoreDefinition_get j (replace_snapshot k v w)
  = if decide (j = k) then v else StoreDefinition_get j w.
Proof.
  rewrite replace_snapshot_eq.
  unfold StoreDefinition_get, StoreSnapshot_get, js_get, js_lookup, props_of.
  cbn -[fresh].
  rewrite lookup_insert_eq. cbn.
  case_decide as Hjk.
  - subst. by rewrite lookup_insert_eq.
  - rewrite lookup_insert_ne by done.
    by destruct (heap w !! _).
Qed.

Lemma replace_snapshot_frozen k v w o :
  heap w !! state (storeSnapshot (store w)) = Some o →
  heap (replace_snapshot k v w) !! state (storeSnapshot (store w))
  = Some (Obj (props o) true).
Proof.
  intros Ho. rewrite replace_snapshot_eq. cbn -[fresh].
  rewrite lookup_insert_ne.
  - unfold js_freeze. by rewrite lookup_alter_eq, Ho.
  - intros E. rewrite <- E in Ho. by rewrite new_state_fresh in Ho.
Qed.

Lemma replace_snapshot_wf k v w :
  wf w → k ∈ fields w → wf (replace_snapshot k v w).
Proof.
  intros [(o & Ho & Hd) Hf Hce Hca] Hk.
  rewrite replace_snapshot_eq. constructor; try done.
  unfold fully_built, fields. cbn -[fresh].
  rewrite lookup_insert_eq. eexists. split; [done|]. cbn.
  unfold props_of. rewrite Ho. rewrite dom_insert_L.
  by apply union_subseteq_r'.
Qed.

Lemma depth_bound w : wf w → depth w ≤ 2 * size (fields w).
Proof.
  intros [_ _ [N1 S1] [N2 S2]]. unfold depth.
  assert (∀ l : list key, NoDup l → (∀ k, k ∈ l → k ∈ fields w) →
            length l ≤ size (fields w)) as H.
  { intros l Hn Hs. rewrite <- (size_list_to_set (C := gset key) l Hn).
    apply subseteq_size. intros k Hk. apply Hs. by apply elem_of_list_to_set in Hk. }
  specialize (H _ N1 S1) as H1. specialize (H _ N2 S2) as H2. lia.
Qed.

(** When [k] is a known setter key, the replacement is a frame step. *)
Lemma replace_snapshot_frame F k v w :
  wf w → k ∈ F → F ⊆ fields w →
  frame F (entry_above (depth w)) w (replace_snapshot k v w).
Proof.
  intros Hw Hk HF.
  assert (wf (replace_snapshot k v w)) as Hw' by (apply replace_snapshot_wf; auto).
  constructor; try done; try (rewrite replace_snapshot_eq; done).
  - apply replace_snapshot_heap.
  - intros j Hj. rewrite replace_snapshot_get. case_decide; [by subst|done].
  - rewrite replace_snapshot_eq. cbn -[fresh]. eexists. split; [done|].
    apply Forall_singleton. cbn -[fresh]. split; [by split|].
    split.
    + cbn -[fresh]. apply (depth_bound w Hw).
    + rewrite <- replace_snapshot_eq with (k := k) (v := v).
      apply (wf_state _ Hw').
Qed.

(** ** Nested emission *)

Lemma record_frame F a w :
  wf w → is_deliver a = false → seen_ok w a →
  frame F (entry_above (depth w)) w (record a w).
Proof.
  intros Hw Hd Ha. constructor; try done.
  - intros l o Ho. eauto.
  - destruct Hw. by constructor.
  - exists [(depth w, a)]. split; [done|]. apply Forall_singleton.
    split; [split; [done|cbn; by rewrite Hd]|].
    split; [apply (depth_bound w Hw)|exact Ha].
Qed.

Lemma record_deliver_frame F d t k w :
  wf w → depth w = S d →
  frame F (entry_inside d) w (record (Deliver t k (storeSnapshot (store w))) w).
Proof.
  intros Hw Hd. constructor; try done.
  - intros l o Ho. eauto.
  - destruct Hw. by constructor.
  - eexists. split; [done|]. apply Forall_singleton.
    split; [unfold entry_inside; cbn; lia|].
    split; [apply (depth_bound w Hw)|apply (wf_state _ Hw)].
Qed.

Lemma depth_push {P} (c : channel P) k w :
  depth (with_callChain c (callChain (emitter_of c w) ++ [k]) w) = S (depth w).
Proof. destruct c; unfold depth; cbn; rewrite length_app; cbn; lia. Qed.

Lemma wf_push {P} (c : channel P) k w :
  wf w → k ∈ fields w → k ∉ callChain (emitter_of c w) →
  wf (with_callChain c (callChain (emitter_of c w) ++ [k]) w).
Proof.
  intros [Hs Hf [N1 S1] [N2 S2]] Hk Hn.
  assert (chain_ok w (callChain (emitter_of c w) ++ [k])) as Hc.
  { split.
    - apply NoDup_app. split_and!.
      + destruct c; done.
      + intros x Hx Hx'. apply list_elem_of_singleton in Hx'. by subst.
      + apply NoDup_singleton.
    - intros x Hx. apply elem_of_app in Hx as [Hx|Hx].
      + destruct c; auto.
      + apply list_elem_of_singleton in Hx. by subst. }
  destruct c; constructor; try done.
Qed.

(** Popping the topic pushed before a delivery restores the emitters. *)
Lemma pop_frame {P} (c : channel P) F Q k w w2 :
  wf w →
  frame F Q (with_callChain c (callChain (emitter_of c w) ++ [k]) w) w2 →
  frame F Q w (with_callChain c (removelast (callChain (emitter_of c w2))) w2).
Proof.
  intros Hw H.
  assert (callChain (emitter_of c w2) = callChain (emitter_of c w) ++ [k]) as Hc.
  { destruct c; cbn; [rewrite (fr_emitter _ _ _ _ H)|rewrite (fr_alls _ _ _ _ H)]; done. }
  rewrite Hc, removelast_last.
  pose proof (fr_funs _ _ _ _ H) as E1. pose proof (fr_setters _ _ _ _ H) as E2.
  pose proof (fr_emitter _ _ _ _ H) as E3. pose proof (fr_alls _ _ _ _ H) as E4.
  pose proof (fr_wf _ _ _ _ H) as [Hs2 Hf2 Hce2 Hca2].
  destruct (fr_console _ _ _ _ H) as (t & Et & At).
  assert (fields w2 = fields w) as Hfl by (unfold fields; destruct c; by rewrite E2).
  constructor.
  - destruct c; cbn in *; done.
  - destruct c; cbn in *; done.
  - destruct c; cbn in *; [rewrite E3|rewrite E3]; [|done].
    unfold with_chain. cbn. by destruct (emitter (store w)).
  - destruct c; cbn in *; [rewrite E4|rewrite E4]; [done|].
    unfold with_chain. cbn. by destruct (alls (store w)).
  - intros l o Ho. destruct (fr_heap _ _ _ _ H l o) as (o' & Ho' & Hp).
    + destruct c; exact Ho.
    + exists o'. destruct c; done.
  - intros j Hj. pose proof (fr_get _ _ _ _ H j Hj) as G. destruct c; exact G.
  - destruct Hw as [_ _ [N1 S1] [N2 S2]].
    destruct c; constructor; cbn in *; try done.
    + split; [done|]. unfold fields in *. cbn. by rewrite E2.
    + split; [done|]. unfold fields in *. cbn. by rewrite E2.
  - exists t. split; [destruct c; exact Et|].
    eapply Forall_impl; [exact At|]. intros e [Hd He]. split; [done|].
    destruct He as [He1 He2]. split.
    + destruct c; exact He1.
    + destruct c; exact He2.
Qed.

Lemma subscribed_cons_True {P} k t (h : P -> prog) rest :
  matches t k = true → subscribed k ((t, h) :: rest) = t :: subscribed k rest.
Proof. intros H. unfold subscribed. by rewrite filter_cons_True. Qed.

Lemma subscribed_cons_False {P} k t (h : P -> prog) rest :
  matches t k = false → subscribed k ((t, h) :: rest) = subscribed k rest.
Proof.
  intros H. unfold subscribed. rewrite filter_cons_False; [done|].
  cbn. by rewrite H.
Qed.

Lemma deliveries_cons_deliver d t k s rest :
  deliveries d ((d, Deliver t k s) :: rest) = t :: deliveries d rest.
Proof.
  unfold deliveries. cbn. unfold delivered_at at 1. cbn.
  by rewrite decide_True.
Qed.

Section Nested.
Variable call : fref -> value -> world -> outcome world.
Variable F : gset key.
Variable n : nat.
Hypothesis Hcall : call_ok call F n.

Lemma run_frame p :
  ∀ w, wf w → obs_ok F w → F ⊆ fields w → prog_ok F p →
       2 * size (fields w) < depth w + n →
       ∃ w', run call p w = Ok w' ∧ frame F (entry_above (depth w)) w w'.
Proof.
  induction p as [|k cont IH|k v cont IH]; intros w Hw Ho HF Hp Hn; simpl.
  - eauto using frame_refl.
  - apply IH; auto.
  - destruct Hp as [Hk Hp]. unfold StoreDefinition_set.
    assert (k ∈ fields w) as Hkf by auto.
    unfold fields in Hkf. apply elem_of_dom in Hkf as [f Hf]. rewrite Hf.
    destruct (Hcall w f v k Hw Ho HF (wf_funs _ Hw _ _ Hf) Hk Hn) as (w1 & E1 & R1).
    rewrite E1. cbn.
    destruct (IH w1) as (w2 & E2 & R2).
    + exact (fr_wf _ _ _ _ R1).
    + by apply (frame_obs_ok F w w1 R1).
    + by rewrite (frame_fields _ _ _ R1).
    + done.
    + by rewrite (frame_fields _ _ _ R1), (frame_depth _ _ _ R1).
    + exists w2. split; [done|].
      rewrite (frame_depth _ _ _ R1) in R2. by apply (frame_trans _ _ w w1 w2).
Qed.

Lemma deliver_frame {P} (obs : list (topic * (P -> prog))) k payload :
  handlers_ok F obs →
  ∀ d w, depth w = S d → wf w → obs_ok F w → F ⊆ fields w →
       2 * size (fields w) < depth w + n →
       ∃ w' t,
         deliver call obs k payload w = Ok w'
         ∧ frame F (entry_inside d) w w'
         ∧ console w' = console w ++ t
         ∧ deliveries (S d) t = subscribed k obs
         ∧ (∀ s, first_seen t = Some s → s = storeSnapshot (store w)).
Proof.
  induction obs as [|[t h] rest IH]; intros Hh d w Hd Hw Ho HF Hn; simpl.
  - exists w, []. split_and!; [done|by apply frame_refl|by rewrite app_nil_r|done|done].
  - apply Forall_cons in Hh as [Hh Hrest].
    destruct (matches t k) eqn:Hm.
    2:{ rewrite (subscribed_cons_False k t h rest Hm). by apply IH. }
    rewrite (subscribed_cons_True k t h rest Hm).
    pose proof (record_deliver_frame F d t k w Hw Hd) as R0.
    set (wr := record (Deliver t k (storeSnapshot (store w))) w) in *.
    destruct (run_frame (h payload) wr (fr_wf _ _ _ _ R0) Ho HF (Hh payload) Hn)
      as (w1 & E1 & R1).
    rewrite E1. cbn.
    change (depth wr) with (depth w) in R1. rewrite Hd in R1.
    pose proof (frame_trans _ _ _ _ _ R0
                  (frame_weaken F _ _ wr w1 (entry_above_inside d) R1)) as R01.
    destruct (IH Hrest d w1) as (w2 & t2 & E2 & R2 & C2 & D2 & _).
    + by rewrite (frame_depth _ _ _ R01).
    + exact (fr_wf _ _ _ _ R01).
    + by apply (frame_obs_ok F w w1 R01).
    + by rewrite (frame_fields _ _ _ R01).
    + by rewrite (frame_fields _ _ _ R01), (frame_depth _ _ _ R01).
    + destruct (fr_console _ _ _ _ R1) as (t1 & C1 & A1).
      exists w2, ((S d, Deliver t k (storeSnapshot (store w))) :: t1 ++ t2).
      split_and!.
      * done.
      * by apply (frame_trans _ _ w w1 w2).
      * rewrite C2, C1. unfold wr, record. cbn. rewrite Hd.
        by rewrite <- !app_assoc.
      * rewrite deliveries_cons_deliver, deliveries_app, D2.
        rewrite deliveries_above; [done|].
        eapply Forall_impl; [exact A1|]. by intros e [He _].
      * cbn. by intros s [= <-].
Qed.

Lemma emit_frame {P} (c : channel P) k payload w :
  wf w → obs_ok F w → F ⊆ fields w → k ∈ fields w →
  2 * size (fields w) < depth w + S n →
  ∃ w' t,
    Emitter_emit call c k payload w = Ok w'
    ∧ frame F (entry_above (depth w)) w w'
    ∧ console w' = console w ++ (depth w, emit_action c k payload) :: t
    ∧ Forall (fun e => own_action (depth w) e = false) t
    ∧ (k ∈ callChain (emitter_of c w) → t = [cycle_report c k w])
    ∧ (k ∉ callChain (emitter_of c w) →
       deliveries (S (depth w)) t = subscribed k (observers (emitter_of c w)))
    ∧ (∀ s, first_seen t = Some s → s = storeSnapshot (store w)).
Proof.
  intros Hw Ho HF Hk Hn. unfold Emitter_emit.
  set (w0 := record (emit_action c k payload) w).
  assert (frame F (entry_above (depth w)) w w0) as R0.
  { apply record_frame; [done| |]; by destruct c. }
  assert (callChain (emitter_of c w0) = callChain (emitter_of c w)) as Ec
    by (by destruct c).
  case_bool_decide as Hin.
  - (* the topic is already being emitted *)
    exists (onCycle (callChain (emitter_of c w0) ++ [k]) w0). eexists.
    split; [done|]. split_and!.
    + eapply frame_trans; [exact R0|].
      apply (record_frame F _ w0); [exact (fr_wf _ _ _ _ R0)|done|done].
    + unfold onCycle, record, w0. cbn. rewrite <- app_assoc. done.
    + by apply Forall_singleton.
    + intros _. unfold cycle_report. by destruct c.
    + intros Hnin. by rewrite Ec in Hin.
    + done.
  - pose proof (fr_wf _ _ _ _ R0) as Hw0.
    assert (fields w0 = fields w) as Ef by done.
    assert (depth w0 = depth w) as Ed by done.
    set (w1 := with_callChain c (callChain (emitter_of c w0) ++ [k]) w0).
    assert (wf w1) as Hw1 by (apply wf_push; done).
    assert (depth w1 = S (depth w)) as Ed1
      by (unfold w1; rewrite depth_push; done).
    assert (fields w1 = fields w) as Ef1 by (unfold w1; by destruct c).
    assert (observers (emitter_of c w0) = observers (emitter_of c w)) as Eo
      by (by destruct c).
    destruct (deliver_frame (observers (emitter_of c w0)) k payload)
      with (d := depth w) (w := w1) as (w2 & t & E2 & R2 & C2 & D2 & S2).
    + rewrite Eo. destruct Ho as [Ho1 Ho2]. by destruct c.
    + done.
    + done.
    + destruct Ho as [Ho1 Ho2]. unfold w1. split; by destruct c.
    + by rewrite Ef1.
    + rewrite Ef1, Ed1. lia.
    + rewrite E2. cbn.
      pose proof (pop_frame c F _ k w0 w2 Hw0 R2) as R3.
      eexists. exists t. split; [done|]. split_and!.
      * eapply frame_trans; [exact R0|].
        eapply frame_weaken; [|exact R3]. apply entry_inside_above.
      * assert (console (with_callChain c
                  (removelast (callChain (emitter_of c w2))) w2) = console w2)
          as Ex by (by destruct c).
        assert (console w1 = console w0) as Ey by (by destruct c).
        rewrite Ex, C2, Ey. unfold w0, record. cbn. by rewrite <- app_assoc.
      * destruct (fr_console _ _ _ _ R2) as (t' & Et' & At').
        rewrite C2 in Et'. apply app_inv_head in Et'. subst t'.
        eapply Forall_impl; [exact At'|]. intros e [Hd _].
        by apply entry_inside_not_own.
      * intros Hin'. by rewrite <- Ec in Hin'.
      * intros _. by rewrite D2, Eo.
      * intros s Hs. rewrite (S2 s Hs). unfold w1. by destruct c.
Qed.

Lemma setter_frame k v w :
  wf w → obs_ok F w → F ⊆ fields w → k ∈ fields w →
  2 * size (fields w) < depth w + S n →
  ∃ w' t1 t2,
    setter call k v w = Ok w'
    ∧ frame F (entry_above (depth w)) (replace_snapshot k v w) w'
    ∧ console w' =
        console w
        ++ (depth w, Swap (MkSnapshot (new_state w)))
           :: (depth w, EmitField k v) :: t1
        ++ (depth w, EmitAll k (Ev k (StoreDefinition_get k w) v)) :: t2
    ∧ Forall (fun e => own_action (depth w) e = false) t1
    ∧ Forall (fun e => own_action (depth w) e = false) t2
    ∧ (k ∈ callChain (emitter (store w)) → t1 = [cycle_report Fields k w])
    ∧ (k ∈ callChain (alls (store w)) → t2 = [cycle_report Alls k w])
    ∧ (k ∉ callChain (emitter (store w)) →
       deliveries (S (depth w)) t1 = subscribed k (observers (emitter (store w))))
    ∧ (k ∉ callChain (alls (store w)) →
       deliveries (S (depth w)) t2 = subscribed k (observers (alls (store w))))
    ∧ (∀ s, first_seen t1 = Some s → s = MkSnapshot (new_state w)).
Proof.
  intros Hw Ho HF Hk Hn. unfold setter.
  set (w1 := replace_snapshot k v w).
  assert (wf w1) as Hw1 by (by apply replace_snapshot_wf).
  assert (fields w1 = fields w) as Ef1
    by (unfold w1; rewrite replace_snapshot_eq; done).
  assert (depth w1 = depth w) as Ed1
    by (unfold w1; rewrite replace_snapshot_eq; done).
  assert (obs_ok F w1) as Ho1
    by (unfold w1; rewrite replace_snapshot_eq; done).
  assert (console w1 = console w ++ [(depth w, Swap (MkSnapshot (new_state w)))])
    as Ec1 by (unfold w1; rewrite replace_snapshot_eq; done).
  destruct (emit_frame Fields k v w1) as (w2 & t1 & E2 & R2 & C2 & A2 & Y2 & D2 & S2);
    [done|done|by rewrite Ef1|by rewrite Ef1|rewrite Ef1, Ed1; lia|].
  rewrite E2. cbn.
  pose proof (frame_fields _ _ _ R2) as Ef2.
  pose proof (frame_depth _ _ _ R2) as Ed2.
  destruct (emit_frame Alls k (Ev k (StoreSnapshot_get (storeSnapshot (store w)) k w) v) w2)
    as (w3 & t2 & E3 & R3 & C3 & A3 & Y3 & D3 & _).
  { exact (fr_wf _ _ _ _ R2). }
  { by apply (frame_obs_ok F w1 w2 R2). }
  { by rewrite Ef2, Ef1. }
  { by rewrite Ef2, Ef1. }
  { rewrite Ef2, Ef1, Ed2, Ed1. lia. }
  assert (emitter (store w1) = emitter (store w)) as Ee1
    by (unfold w1; rewrite replace_snapshot_eq; done).
  assert (alls (store w1) = alls (store w)) as Ea1
    by (unfold w1; rewrite replace_snapshot_eq; done).
  rewrite Ed2 in R3. rewrite Ed2, Ed1 in C3, A3, D3. rewrite Ed1 in C2, A2, D2.
  exists w3, t1, t2. split; [done|]. split_and!.
  - rewrite <- Ed1. by apply (frame_trans _ _ w1 w2 w3).
  - rewrite C3, C2, Ec1. cbn. rewrite <- !app_assoc. cbn. done.
  - done.
  - done.
  - intros Hin. rewrite Y2 by (cbn [emitter_of]; by rewrite Ee1).
    unfold cycle_report. cbn [emitter_of]. by rewrite Ed1, Ee1.
  - intros Hin. rewrite Y3 by (cbn [emitter_of]; by rewrite (fr_alls _ _ _ _ R2), Ea1).
    unfold cycle_report. cbn [emitter_of].
    by rewrite Ed2, Ed1, (fr_alls _ _ _ _ R2), Ea1.
  - intros Hin. rewrite D2 by (cbn [emitter_of]; by rewrite Ee1).
    cbn [emitter_of]. by rewrite Ee1.
  - intros Hin. rewrite D3 by (cbn [emitter_of]; by rewrite (fr_alls _ _ _ _ R2), Ea1).
    cbn [emitter_of]. by rewrite (fr_alls _ _ _ _ R2), Ea1.
  - intros s Hs. rewrite (S2 s Hs). unfold w1. by rewrite replace_snapshot_eq.
Qed.
End Nested.

(** With fuel for every emission that can still be in flight (two per
    field, minus those already in flight), a setter invocation made by a
    handler completes. *)
Lemma invoke_call_ok F n : call_ok (invoke n) F n.
Proof.
  induction n as [|n IH]; intros w f v k Hw Ho HF Hf Hk Hn.
  - pose proof (depth_bound w Hw). lia.
  - cbn. rewrite Hf.
    destruct (setter_frame (invoke n) F n IH k v w) as (w' & t1 & t2 & E & R & _);
      [done|done|done|auto|done|].
    exists w'. split; [done|].
    eapply frame_trans; [|exact R]. by apply replace_snapshot_frame.
Qed.
(** ** The setter table never changes *)

Lemma stable_refl w : stable w w.
Proof. by split. Qed.

Lemma stable_trans w1 w2 w3 : stable w1 w2 → stable w2 w3 → stable w1 w3.
Proof. intros [A1 B1] [A2 B2]. split; congruence. Qed.

Lemma with_callChain_stable {P} (c : channel P) chain w :
  stable w (with_callChain c chain w).
Proof. by destruct c. Qed.

Section Stable.
Variable call : fref -> value -> world -> outcome world.
Hypothesis Hcall : ∀ f v w w', call f v w = Ok w' → stable w w'.

Lemma run_stable p : ∀ w w', run call p w = Ok w' → stable w w'.
Proof.
  induction p as [|k cont IH|k v cont IH]; intros w w' E; simpl in E.
  - injection E as <-. apply stable_refl.
  - by eapply IH.
  - destruct (StoreDefinition_set k w) as [f|]; [|done].
    destruct (call f v w) as [w1| |] eqn:E1; cbn in E; try done.
    eapply stable_trans; [by eapply Hcall|by apply IH].
Qed.

Lemma deliver_stable {P} (obs : list (topic * (P -> prog))) k payload :
  ∀ w w', deliver call obs k payload w = Ok w' → stable w w'.
Proof.
  induction obs as [|[t h] rest IH]; intros w w' E; simpl in E.
  - injection E as <-. apply stable_refl.
  - destruct (matches t k); [|by apply IH].
    destruct (run call (h payload) _) as [w1| |] eqn:E1; cbn in E; try done.
    apply run_stable in E1. apply IH in E.
    eapply stable_trans; [|exact E]. exact E1.
Qed.

Lemma emit_stable {P} (c : channel P) k payload w w' :
  Emitter_emit call c k payload w = Ok w' → stable w w'.
Proof.
  unfold Emitter_emit. case_bool_decide.
  - intros E. injection E as <-. by split.
  - destruct (deliver call _ k payload _) as [w1| |] eqn:E1; cbn; try done.
    intros E. injection E as <-. apply deliver_stable in E1.
    eapply stable_trans; [|apply with_callChain_stable].
    eapply stable_trans; [|exact E1].
    eapply stable_trans; [|apply with_callChain_stable]. by split.
Qed.

Lemma setter_stable k v w w' : setter call k v w = Ok w' → stable w w'.
Proof.
  unfold setter.
  destruct (Emitter_emit call Fields k v _) as [w1| |] eqn:E1; cbn; try done.
  intros E2. apply emit_stable in E1, E2.
  eapply stable_trans; [|exact E2]. eapply stable_trans; [|exact E1].
  rewrite replace_snapshot_eq. by split.
Qed.
End Stable.

Lemma invoke_stable n : ∀ f v w w', invoke n f v w = Ok w' → stable w w'.
Proof.
  induction n as [|n IH]; intros f v w w' E; cbn in E; [done|].
  destruct (funs w !! f); [|done]. by eapply setter_stable.
Qed.

Lemma step_stable w w' : step w w' → stable w w'.
Proof.
  destruct 1 as [P c t h w|fuel k v w w' E|w|strict l k v w].
  - by destruct c.
  - unfold set_field in E. destruct (StoreDefinition_set k w); [|done].
    by eapply invoke_stable.
  - by split.
  - by split.
Qed.

Lemma rtc_step_stable w w' : rtc step w w' → stable w w'.
Proof.
  induction 1 as [|w1 w2 w3 H12 _ IH]; [apply stable_refl|].
  eapply stable_trans; [by apply step_stable|done].
Qed.

(** ** More fuel changes nothing *)

Section Fuel.
Variables call call' : fref -> value -> world -> outcome world.
Hypothesis Hle : ∀ f v w w', call f v w = Ok w' → call' f v w = Ok w'.

Lemma run_more p : ∀ w w', run call p w = Ok w' → run call' p w = Ok w'.
Proof.
  induction p as [|k cont IH|k v cont IH]; intros w w' E; simpl in *.
  - done.
  - by apply IH.
  - destruct (StoreDefinition_set k w) as [f|]; [|done].
    destruct (call f v w) as [w1| |] eqn:E1; cbn in E; try done.
    rewrite (Hle _ _ _ _ E1). cbn. by apply IH.
Qed.

Lemma deliver_more {P} (obs : list (topic * (P -> prog))) k payload :
  ∀ w w', deliver call obs k payload w = Ok w' →
          deliver call' obs k payload w = Ok w'.
Proof.
  induction obs as [|[t h] rest IH]; intros w w' E; simpl in *; [done|].
  destruct (matches t k); [|by apply IH].
  destruct (run call (h payload) _) as [w1| |] eqn:E1; cbn in E; try done.
  rewrite (run_more _ _ _ E1). cbn. by apply IH.
Qed.

Lemma emit_more {P} (c : channel P) k payload w w' :
  Emitter_emit call c k payload w = Ok w' →
  Emitter_emit call' c k payload w = Ok w'.
Proof.
  unfold Emitter_emit. case_bool_decide; [done|]. intros E.
  destruct (deliver call _ k payload _) as [w1| |] eqn:E1; cbn in E; try done.
  apply deliver_more in E1. by rewrite E1.
Qed.

Lemma setter_more k v w w' :
  setter call k v w = Ok w' → setter call' k v w = Ok w'.
Proof.
  unfold setter. intros E.
  destruct (Emitter_emit call Fields k v _) as [w1| |] eqn:E1; cbn in E; try done.
  apply emit_more in E1. rewrite E1. cbn. by apply emit_more.
Qed.
End Fuel.

(** A result obtained with some fuel is the result with any larger
    amount. *)
Lemma invoke_more_fuel n :
  ∀ m f v w w', n ≤ m → invoke n f v w = Ok w' → invoke m f v w = Ok w'.
Proof.
  induction n as [|n IH]; intros m f v w w' Hm E; [done|].
  destruct m as [|m]; [lia|]. cbn in *.
  destruct (funs w !! f); [|done].
  eapply setter_more; [|exact E]. intros f' v' w1 w1' E1.
  apply (IH m); [lia|done].
Qed.

(** ** Construction *)

Lemma alloc_setter_fold l :
  ∀ acc,
    (∀ k f, acc.1 !! k = Some f → acc.2 !! f = Some k) →
    let r := foldl alloc_setter acc l in
    (∀ k f, r.1 !! k = Some f → r.2 !! f = Some k)
    ∧ dom r.1 = dom acc.1 ∪ list_to_set l.*1.
Proof.
  induction l as [|[k0 v0] l IH]; intros acc Hacc; cbn.
  - split; [done|]. by rewrite (right_id_L ∅ (∪)).
  - destruct (IH (alloc_setter acc (k0, v0))) as [H1 H2].
    + unfold alloc_setter. cbn. intros k f.
      destruct (decide (k = k0)) as [->|Hne].
      * rewrite lookup_insert_eq. intros [= <-]. by rewrite lookup_insert_eq.
      * rewrite lookup_insert_ne by done. intros Hk.
        pose proof (Hacc _ _ Hk) as Hf.
        rewrite lookup_insert_ne; [done|].
        intros E. pose proof (is_fresh (dom acc.2)) as Hfr.
        rewrite E in Hfr. apply Hfr. apply elem_of_dom. eauto.
    + split; [exact H1|]. rewrite H2. unfold alloc_setter. cbn.
      rewrite dom_insert_L, (comm_L (∪) {[k0]}), <- (assoc_L (∪)). done.
Qed.

Lemma mapValues_setters_spec (o : gmap key value) :
  (∀ k f, (mapValues_setters o).1 !! k = Some f →
          (mapValues_setters o).2 !! f = Some k)
  ∧ dom (mapValues_setters o).1 = dom o.
Proof.
  unfold mapValues_setters.
  destruct (alloc_setter_fold (map_to_list o) (∅, ∅)) as [H1 H2]; [done|].
  split; [exact H1|]. rewrite H2. cbn. rewrite dom_empty_L, (left_id_L ∅ (∪)).
  apply set_eq. intros k. rewrite elem_of_list_to_set, elem_of_dom. split.
  - intros Hk. apply list_elem_of_fmap in Hk as ([k' v] & -> & Hkv).
    apply elem_of_map_to_list in Hkv. eauto.
  - intros [v Hv]. apply list_elem_of_fmap. exists (k, v). split; [done|].
    by apply elem_of_map_to_list.
Qed.

Lemma createStore_eq l opts h :
  createStore l opts h =
  MkWorld h (mapValues_setters (props_of h l)).2
    (MkStore (MkSnapshot l)
       (MkEmitter (opt_isDevMode opts) [] [])
       (MkEmitter (opt_isDevMode opts) [] [])
       (mapValues_setters (props_of h l)).1)
    [].
Proof.
  unfold createStore, new_StoreDefinition.
  by destruct (mapValues_setters (props_of h l)).
Qed.

Lemma createStore_fields l opts h : fields (createStore l opts h) = dom (props_of h l).
Proof.
  rewrite createStore_eq. unfold fields. cbn.
  apply (mapValues_setters_spec (props_of h l)).
Qed.

Lemma createStore_wf l opts h :
  is_Some (h !! l) → wf (createStore l opts h).
Proof.
  intros [o Ho]. pose proof (createStore_fields l opts h) as Hf.
  destruct (mapValues_setters_spec (props_of h l)) as [H1 H2].
  rewrite createStore_eq in *. constructor; cbn.
  - exists o. split; [done|]. rewrite Hf. unfold props_of. by rewrite Ho.
  - exact H1.
  - split; [constructor|]. intros k Hk. by apply elem_of_nil in Hk.
  - split; [constructor|]. intros k Hk. by apply elem_of_nil in Hk.
Qed.

Lemma createStore_obs_ok F l opts h : obs_ok F (createStore l opts h).
Proof. rewrite createStore_eq. split; constructor. Qed.

Lemma subscribe_wf {P} (c : channel P) t handler w :
  wf w → wf (subscribe c t handler w).
Proof. intros [H1 H2 H3 H4]. destruct c; by constructor. Qed.

Lemma subscribe_fields {P} (c : channel P) t handler w :
  fields (subscribe c t handler w) = fields w.
Proof. by destruct c. Qed.

Lemma subscribe_depth {P} (c : channel P) t handler w :
  depth (subscribe c t handler w) = depth w.
Proof. by destruct c. Qed.

Lemma subscribe_obs_ok {P} F (c : channel P) t handler w :
  obs_ok F w → (∀ payload, prog_ok F (handler payload)) →
  obs_ok F (subscribe c t handler w).
Proof.
  intros [H1 H2] Hh. destruct c; split; cbn; try done.
  - apply Forall_app. split; [done|]. by apply Forall_singleton.
  - apply Forall_app. split; [done|]. by apply Forall_singleton.
Qed.

(** ** A setter invocation, from the outside *)

Lemma invoke_spec F fuel w f k v :
  wf w → obs_ok F w → F ⊆ fields w →
  StoreDefinition_set k w = Some f →
  2 * size (fields w) < depth w + fuel →
  ∃ w' t1 t2,
    invoke fuel f v w = Ok w'
    ∧ frame F (entry_above (depth w)) (replace_snapshot k v w) w'
    ∧ console w' =
        console w
        ++ (depth w, Swap (MkSnapshot (new_state w)))
           :: (depth w, EmitField k v) :: t1
        ++ (depth w, EmitAll k (Ev k (StoreDefinition_get k w) v)) :: t2
    ∧ Forall (fun e => own_action (depth w) e = false) t1
    ∧ Forall (fun e => own_action (depth w) e = false) t2
    ∧ Forall (entry_ok w') (t1 ++ t2)
    ∧ (k ∈ callChain (emitter (store w)) → t1 = [cycle_report Fields k w])
    ∧ (k ∈ callChain (alls (store w)) → t2 = [cycle_report Alls k w])
    ∧ (k ∉ callChain (emitter (store w)) →
       deliveries (S (depth w)) t1 = subscribed k (observers (emitter (store w))))
    ∧ (k ∉ callChain (alls (store w)) →
       deliveries (S (depth w)) t2 = subscribed k (observers (alls (store w))))
    ∧ (∀ s, first_seen t1 = Some s → s = MkSnapshot (new_state w)).
Proof.
  intros Hw Ho HF Hf Hn.
  destruct fuel as [|n]; [pose proof (depth_bound w Hw); lia|].
  cbn [invoke]. rewrite (wf_funs _ Hw _ _ Hf).
  assert (k ∈ fields w) as Hk by (apply elem_of_dom; eauto).
  destruct (setter_frame (invoke n) F n (invoke_call_ok F n) k v w Hw Ho HF Hk Hn)
    as (w' & t1 & t2 & E & R & C & A1 & A2 & Y1 & Y2 & D1 & D2 & S1).
  exists w', t1, t2. split_and!; try done.
  destruct (fr_console _ _ _ _ R) as (t & Et & At).
  rewrite replace_snapshot_eq in Et. cbn in Et.
  rewrite C, <- app_assoc in Et. apply app_inv_head in Et.
  cbn in Et. injection Et as <-.
  apply Forall_cons in At as [_ At].
  apply Forall_app in At as [At1 At2]. apply Forall_cons in At2 as [_ At2].
  apply Forall_app. split; (eapply Forall_impl; [eassumption|]); by intros e [_ He].
Qed.

(** The state object built by the setter is the previous one with [k]
    replaced by [v]; it is still there, unchanged, when the call returns. *)
Lemma replace_snapshot_new_state F Q k v w w' o :
  heap w !! state (storeSnapshot (store w)) = Some o →
  frame F Q (replace_snapshot k v w) w' →
  ∃ o', heap w' !! new_state w = Some o' ∧ props o' = <[k := v]> (props o).
Proof.
  intros Ho R.
  destruct (fr_heap _ _ _ _ R (new_state w) (Obj (<[k := v]> (props o)) false))
    as (o' & Ho' & Hp).
  - rewrite replace_snapshot_eq. cbn -[new_state]. rewrite lookup_insert_eq.
    unfold props_of. by rewrite Ho.
  - eauto.
Qed.

Lemma frame_snapshot_get F Q w w' s k :
  frame F Q w w' → is_Some (heap w !! state s) →
  StoreSnapshot_get s k w' = StoreSnapshot_get s k w.
Proof.
  intros R [o Ho]. destruct (fr_heap _ _ _ _ R _ _ Ho) as (o' & Ho' & Hp).
  unfold StoreSnapshot_get, js_get. by rewrite Ho, Ho', Hp.
Qed.

(** ** Facts about the demo stores *)

Lemma demo_store_wf : wf demo_store.
Proof. apply createStore_wf. by eexists. Qed.

Lemma demo_store_fields : fields demo_store = dom (props_of demo_heap 1%positive).
Proof. apply createStore_fields. Qed.

Lemma demo_fields_size : size (fields demo_store) = 2.
Proof. rewrite demo_store_fields. by vm_compute. Qed.

Lemma count_is_field : "count" ∈ fields demo_store.
Proof. rewrite demo_store_fields. apply elem_of_dom. by eexists. Qed.

Lemma name_is_field : "name" ∈ fields demo_store.
Proof. rewrite demo_store_fields. apply elem_of_dom. by eexists. Qed.

(** ** Histories *)

Lemma grows_refl w : grows w w.
Proof. constructor; eauto. Qed.

Lemma grows_trans w1 w2 w3 : grows w1 w2 → grows w2 w3 → grows w1 w3.
Proof.
  intros [F1 T1 H1 S1 D1] [F2 T2 H2 S2 D2]. constructor; try congruence.
  - intros l o Ho. destruct (H1 _ _ Ho) as (o2 & Ho2 & Hp2 & Hf2).
    destruct (H2 _ _ Ho2) as (o3 & Ho3 & Hp3 & Hf3).
    exists o3. split_and!; [done|congruence|auto].
  - destruct S2 as [S2|S2].
    + rewrite S2. exact S1.
    + right. destruct (heap w1 !! state (storeSnapshot (store w3))) as [o|] eqn:E; [|done].
      destruct (H1 _ _ E) as (o2 & Ho2 & _). congruence.
Qed.

Lemma grows_keyed w w' : grows w w' → keyed w → keyed w'.
Proof.
  intros [F T H S D] Hk k f Hf. rewrite T in Hf. rewrite F, D. by apply Hk.
Qed.

Lemma wf_keyed w : wf w → keyed w.
Proof.
  intros Hw k f Hf. split; [by apply (wf_funs _ Hw)|].
  destruct (wf_state _ Hw) as (o & Ho & Hd).
  unfold shape, props_of. rewrite Ho. apply Hd. apply elem_of_dom. eauto.
Qed.

Lemma record_grows a w : grows w (record a w).
Proof. constructor; eauto. Qed.

Lemma with_callChain_grows {P} (c : channel P) chain w :
  grows w (with_callChain c chain w).
Proof. destruct c; constructor; eauto. Qed.

(** The replacement itself: the new state object did not exist, the
    previous one is frozen, the keys are the same when [k] was one. *)
Lemma replace_snapshot_grows k v w :
  k ∈ shape w → grows w (replace_snapshot k v w).
Proof.
  intros Hk. constructor; try (rewrite replace_snapshot_eq; done).
  - intros l o Ho. rewrite replace_snapshot_eq. cbn -[new_state].
    assert (l ≠ new_state w) as Hne.
    { intros ->. by rewrite new_state_fresh in Ho. }
    rewrite lookup_insert_ne by done.
    unfold js_freeze. rewrite lookup_alter. case_decide; subst; rewrite Ho; cbn; eauto.
  - right. rewrite replace_snapshot_eq. cbn -[new_state]. apply new_state_fresh.
  - rewrite replace_snapshot_eq. unfold shape at 1. cbn -[new_state].
    unfold props_of at 1. rewrite lookup_insert_eq. cbn -[new_state].
    rewrite dom_insert_L. apply subseteq_union_1_L.
    by apply singleton_subseteq_l.
Qed.

Section Grows.
Variable call : fref -> value -> world -> outcome world.
Hypothesis Hcall :
  ∀ f v w w' k, keyed w → setters (store w) !! k = Some f →
                call f v w = Ok w' → grows w w'.

Lemma run_grows p : ∀ w w', keyed w → run call p w = Ok w' → grows w w'.
Proof.
  induction p as [|k cont IH|k v cont IH]; intros w w' Hk E; simpl in E.
  - injection E as <-. apply grows_refl.
  - by eapply IH.
  - destruct (StoreDefinition_set k w) as [f|] eqn:Ef; [|done].
    destruct (call f v w) as [w1| |] eqn:E1; cbn in E; try done.
    pose proof (Hcall _ _ _ _ _ Hk Ef E1) as G1.
    eapply grows_trans; [exact G1|]. apply IH; [|done].
    by apply (grows_keyed w).
Qed.

Lemma deliver_grows {P} (obs : list (topic * (P -> prog))) k payload :
  ∀ w w', keyed w → deliver call obs k payload w = Ok w' → grows w w'.
Proof.
  induction obs as [|[t h] rest IH]; intros w w' Hk E; simpl in E.
  - injection E as <-. apply grows_refl.
  - destruct (matches t k); [|by apply IH].
    destruct (run call (h payload) _) as [w1| |] eqn:E1; cbn in E; try done.
    apply run_grows in E1; [|done].
    eapply grows_trans; [apply record_grows|].
    eapply grows_trans; [exact E1|]. apply IH; [|done].
    apply (grows_keyed _ _ E1). done.
Qed.

Lemma emit_grows {P} (c : channel P) k payload w w' :
  keyed w → Emitter_emit call c k payload w = Ok w' → grows w w'.
Proof.
  intros Hk. unfold Emitter_emit.
  set (w0 := record (emit_action c k payload) w).
  assert (grows w w0) as G0 by apply record_grows.
  case_bool_decide.
  - intros E. injection E as <-.
    eapply grows_trans; [exact G0|apply record_grows].
  - set (wp := with_callChain c (callChain (emitter_of c w0) ++ [k]) w0).
    assert (grows w0 wp) as Gp by apply with_callChain_grows.
    intros E.
    destruct (deliver call _ k payload wp) as [w1| |] eqn:E1; cbn in E; try done.
    injection E as <-. apply deliver_grows in E1.
    + eapply grows_trans; [exact G0|].
      eapply grows_trans; [exact Gp|].
      eapply grows_trans; [exact E1|apply with_callChain_grows].
    + apply (grows_keyed w0); [exact Gp|]. by apply (grows_keyed w).
Qed.

Lemma setter_grows k v w w' :
  keyed w → k ∈ shape w → setter call k v w = Ok w' →
  grows (replace_snapshot k v w) w'.
Proof.
  intros Hk Hs. unfold setter. intros E.
  pose proof (replace_snapshot_grows k v w Hs) as G0.
  pose proof (grows_keyed _ _ G0 Hk) as Hk0.
  destruct (Emitter_emit call Fields k v _) as [w1| |] eqn:E1; cbn in E; try done.
  apply emit_grows in E1; [|done]. apply emit_grows in E.
  - by eapply grows_trans.
  - by apply (grows_keyed _ _ E1).
Qed.
End Grows.

Lemma invoke_grows n :
  ∀ f v w w' k, keyed w → setters (store w) !! k = Some f →
                invoke n f v w = Ok w' →
                grows (replace_snapshot k v w) w'.
Proof.
  induction n as [|n IH]; intros f v w w' k Hk Hf E; cbn in E; [done|].
  destruct (Hk _ _ Hf) as [Hfun Hsh]. rewrite Hfun in E.
  eapply setter_grows; [|done|done|exact E].
  intros f' v' w1 w1' k' Hk1 Hf1 E1.
  eapply grows_trans; [|by eapply IH].
  apply replace_snapshot_grows. by apply (Hk1 k' f').
Qed.

(** A setter invocation, with its frame and its history. *)
Lemma invoke_history F fuel w f k v :
  wf w → obs_ok F w → F ⊆ fields w →
  StoreDefinition_set k w = Some f →
  2 * size (fields w) < depth w + fuel →
  ∃ w',
    invoke fuel f v w = Ok w'
    ∧ frame F (entry_above (depth w)) (replace_snapshot k v w) w'
    ∧ grows (replace_snapshot k v w) w'.
Proof.
  intros Hw Ho HF Hf Hn.
  destruct (invoke_spec F fuel w f k v Hw Ho HF Hf Hn) as (w' & t1 & t2 & E & R & _).
  exists w'. split_and!; [done|done|].
  eapply invoke_grows; [by apply wf_keyed|exact Hf|exact E].
Qed.

(** The world after an invocation is fit for the next one. *)
Lemma frame_next F Q k v w w' :
  wf w → obs_ok F w →
  frame F Q (replace_snapshot k v w) w' →
  wf w' ∧ obs_ok F w' ∧ fields w' = fields w ∧ depth w' = depth w
  ∧ setters (store w') = setters (store w).
Proof.
  intros Hw Ho R.
  assert (obs_ok F (replace_snapshot k v w)) as Ho1
    by (by rewrite replace_snapshot_eq).
  split_and!.
  - exact (fr_wf _ _ _ _ R).
  - by apply (frame_obs_ok F _ _ R).
  - rewrite (frame_fields _ _ _ R). by rewrite replace_snapshot_eq.
  - rewrite (frame_depth _ _ _ R). by rewrite replace_snapshot_eq.
  - rewrite (fr_setters _ _ _ _ R). by rewrite replace_snapshot_eq.
Qed.

(** A [set] that returned, with whatever fuel, returned what it returns
    with enough fuel. *)
Lemma set_field_returned F fuel k v w w' :
  wf w → obs_ok F w → F ⊆ fields w →
  set_field fuel k v w = Ok w' →
  frame F (entry_above (depth w)) (replace_snapshot k v w) w'
  ∧ grows (replace_snapshot k v w) w'.
Proof.
  intros Hw Ho HF E. unfold set_field in E.
  destruct (StoreDefinition_set k w) as [f|] eqn:Ef; [|done].
  destruct (invoke_history F (fuel + S (2 * size (fields w))) w f k v Hw Ho HF Ef)
    as (w'' & E'' & R & G); [lia|].
  rewrite (invoke_more_fuel fuel _ f v w w') in E''; [|lia|done].
  by injection E'' as <-.
Qed.

Lemma replace_snapshot_shape k v w : k ∈ shape w → shape (replace_snapshot k v w) = shape w.
Proof. intros Hk. apply (gr_shape _ _ (replace_snapshot_grows k v w Hk)). Qed.

Lemma get_outside_shape j w :
  j ∉ shape w →
  StoreDefinition_get j w
  = if decide (j ∈ Object_prototype) then VInherited j else VUndefined.
Proof.
  unfold shape, props_of, StoreDefinition_get, StoreSnapshot_get, js_get.
  destruct (heap w !! _) as [o|]; apply js_lookup_not_own.
Qed.

Lemma getState_wf w : wf w → wf (StoreDefinition_getState w).2.
Proof.
  intros [(o & Ho & Hd) Hf Hce Hca]. constructor; try done.
  exists (Obj (props o) true). split; [|done].
  cbn. unfold js_freeze. by rewrite lookup_alter_eq, Ho.
Qed.

Lemma getState_shape w : shape (StoreDefinition_getState w).2 = shape w.
Proof.
  unfold shape, props_of. cbn. unfold js_freeze. rewrite lookup_alter_eq.
  by destruct (heap w !! _).
Qed.

Lemma subscribe_shape {P} (c : channel P) t handler w :
  shape (subscribe c t handler w) = shape w.
Proof. by destruct c. Qed.

Lemma createStore_shape l opts h : shape (createStore l opts h) = dom (props_of h l).
Proof. by rewrite createStore_eq. Qed.

Lemma createStore_depth l opts h : depth (createStore l opts h) = 0.
Proof. by rewrite createStore_eq. Qed.

(** ** Facts about the demo stores, for the witnesses *)

Lemma rename_store_ready :
  wf rename_store ∧ obs_ok {["name"]} rename_store
  ∧ {["name"]} ⊆ fields rename_store
  ∧ 2 * size (fields rename_store) < depth rename_store + 5.
Proof.
  split_and!.
  - apply subscribe_wf, demo_store_wf.
  - apply subscribe_obs_ok; [apply createStore_obs_ok|].
    intros payload. split; [by apply elem_of_singleton|exact I].
  - unfold rename_store. rewrite subscribe_fields.
    apply singleton_subseteq_l, name_is_field.
  - unfold rename_store. rewrite subscribe_fields, subscribe_depth, demo_fields_size.
    cbn. lia.
Qed.

Lemma bump_store_ready :
  wf bump_store ∧ obs_ok {["count"]} bump_store
  ∧ {["count"]} ⊆ fields bump_store
  ∧ 2 * size (fields bump_store) < depth bump_store + 5.
Proof.
  split_and!.
  - apply subscribe_wf, demo_store_wf.
  - apply subscribe_obs_ok; [apply createStore_obs_ok|].
    intros payload. unfold bump_effect. case_decide; [|exact I].
    split; [by apply elem_of_singleton|exact I].
  - unfold bump_store. rewrite subscribe_fields.
    apply singleton_subseteq_l, count_is_field.
  - unfold bump_store. rewrite subscribe_fields, subscribe_depth, demo_fields_size.
    cbn. lia.
Qed.

(** ** The store follows its trace *)

Lemma last_omap_cons {A B} (g : A → option B) (e : A) (t : list A) :
  last (omap g (e :: t))
  = match g e with
    | Some v => Some (default v (last (omap g t)))
    | None => last (omap g t)
    end.
Proof.
  cbn. destruct (g e) as [v|]; [|done].
  rewrite last_cons. by destruct (last (omap g t)).
Qed.

Lemma last_omap_app {A B} (g : A → option B) (t1 t2 : list A) :
  last (omap g (t1 ++ t2))
  = match last (omap g t2) with
    | Some v => Some v
    | None => last (omap g t1)
    end.
Proof. by rewrite omap_app, last_app. Qed.

Lemma last_omap_none {A B} (g : A → option B) (t : list A) :
  Forall (fun e => g e = None) t → last (omap g t) = None.
Proof.
  induction 1 as [|e t He _ IH]; [done|]. by rewrite last_omap_cons, He.
Qed.

Lemma last_set_none j t :
  (∀ d u, (d, EmitField j u) ∉ t) → last_set j t = None.
Proof.
  intros H. apply last_omap_none. apply Forall_forall. intros [d a] Hin.
  unfold set_of. cbn. destruct a as [| k u | | |]; try done.
  case_decide; [|done]. subst. by destruct (H d u).
Qed.

Lemma last_swap_none t :
  (∀ d s, (d, Swap s) ∉ t) → last_swap t = None.
Proof.
  intros H. apply last_omap_none. apply Forall_forall. intros [d a] Hin.
  unfold swap_of. cbn. destruct a as [s| | | |]; try done. by destruct (H d s).
Qed.

Lemma tracked_same w w' :
  console w' = console w →
  (∀ j, StoreDefinition_get j w' = StoreDefinition_get j w) →
  storeSnapshot (store w') = storeSnapshot (store w) →
  tracked w w'.
Proof.
  intros Hc Hg Hs. exists []. split_and!; [|done|done].
  by rewrite Hc, (right_id_L [] (++)).
Qed.

Lemma tracked_trans w1 w2 w3 : tracked w1 w2 → tracked w2 w3 → tracked w1 w3.
Proof.
  intros (t1 & C1 & G1 & S1) (t2 & C2 & G2 & S2). exists (t1 ++ t2). split_and!.
  - by rewrite C2, C1, (assoc_L (++)).
  - intros j. rewrite G2, G1. unfold last_set. rewrite last_omap_app.
    by destruct (last (omap (set_of j) t2)).
  - rewrite S2, S1. unfold last_swap. rewrite last_omap_app.
    by destruct (last (omap swap_of t2)).
Qed.

Lemma record_tracked a w :
  is_setter_action a = false ∨ (∃ k e, a = EmitAll k e) → tracked w (record a w).
Proof.
  intros Ha. exists [(depth w, a)]. split_and!; [done| |].
  - intros j. change (StoreDefinition_get j (record a w)) with (StoreDefinition_get j w).
    replace (last_set j [(depth w, a)]) with (@None value); [done|].
    unfold last_set, set_of. cbn.
    destruct Ha as [Ha|(k & e & ->)]; [|done]. by destruct a.
  - change (storeSnapshot (store (record a w))) with (storeSnapshot (store w)).
    replace (last_swap [(depth w, a)]) with (@None StoreSnapshot); [done|].
    unfold last_swap, swap_of. cbn.
    destruct Ha as [Ha|(k & e & ->)]; [|done]. by destruct a.
Qed.

Lemma with_callChain_tracked {P} (c : channel P) chain w :
  tracked w (with_callChain c chain w).
Proof. destruct c; by apply tracked_same. Qed.

(** The first two steps of a setter: the replacement and the entry of its
    [emit] on the per-field emitter. *)
Lemma replace_snapshot_tracked k v w :
  tracked w (record (EmitField k v) (replace_snapshot k v w)).
Proof.
  exists [(depth w, Swap (MkSnapshot (new_state w)));
          (depth (replace_snapshot k v w), EmitField k v)].
  split_and!.
  - rewrite replace_snapshot_eq. cbn -[new_state]. by rewrite <- (assoc_L (++)).
  - intros j.
    change (StoreDefinition_get j (record (EmitField k v) (replace_snapshot k v w)))
      with (StoreDefinition_get j (replace_snapshot k v w)).
    rewrite replace_snapshot_get. unfold last_set, set_of. cbn.
    destruct (decide (k = j)) as [->|Hne].
    + by rewrite decide_True.
    + by rewrite decide_False.
  - by rewrite replace_snapshot_eq.
Qed.

Section Tracks.
Variable call : fref -> value -> world -> outcome world.
Hypothesis Hcall : ∀ f v w w', call f v w = Ok w' → tracked w w'.

Lemma run_tracks p : ∀ w w', run call p w = Ok w' → tracked w w'.
Proof.
  induction p as [|k cont IH|k v cont IH]; intros w w' E; simpl in E.
  - injection E as <-. by apply tracked_same.
  - by eapply IH.
  - destruct (StoreDefinition_set k w) as [f|] eqn:Ef; [|done].
    destruct (call f v w) as [w1| |] eqn:E1; cbn in E; try done.
    eapply tracked_trans; [by eapply Hcall|by apply IH].
Qed.

Lemma deliver_tracks {P} (obs : list (topic * (P -> prog))) k payload :
  ∀ w w', deliver call obs k payload w = Ok w' → tracked w w'.
Proof.
  induction obs as [|[t h] rest IH]; intros w w' E; simpl in E.
  - injection E as <-. by apply tracked_same.
  - destruct (matches t k); [|by apply IH].
    destruct (run call (h payload) _) as [w1| |] eqn:E1; cbn in E; try done.
    apply run_tracks in E1.
    apply (tracked_trans _ (record (Deliver t k (storeSnapshot (store w))) w));
      [apply record_tracked; by left|].
    eapply tracked_trans; [exact E1|by apply IH].
Qed.

Lemma emit_tracks {P} (c : channel P) k payload w w' :
  Emitter_emit call c k payload w = Ok w' →
  tracked (record (emit_action c k payload) w) w'.
Proof.
  unfold Emitter_emit.
  set (w0 := record (emit_action c k payload) w).
  case_bool_decide.
  - intros E. injection E as <-. apply record_tracked. by left.
  - set (wp := with_callChain c (callChain (emitter_of c w0) ++ [k]) w0).
    intros E.
    destruct (deliver call _ k payload wp) as [w1| |] eqn:E1; cbn in E; try done.
    injection E as <-. apply deliver_tracks in E1.
    apply (tracked_trans _ wp); [apply with_callChain_tracked|].
    apply (tracked_trans _ w1); [exact E1|apply with_callChain_tracked].
Qed.

Lemma setter_tracks k v w w' : setter call k v w = Ok w' → tracked w w'.
Proof.
  unfold setter. intros E.
  destruct (Emitter_emit call Fields k v _) as [w1| |] eqn:E1; cbn in E; try done.
  apply emit_tracks in E1. apply emit_tracks in E.
  apply (tracked_trans _ (record (EmitField k v) (replace_snapshot k v w)));
    [apply replace_snapshot_tracked|].
  apply (tracked_trans _ w1); [exact E1|].
  eapply tracked_trans; [|exact E].
  apply record_tracked. right. cbn. eauto.
Qed.
End Tracks.

Lemma invoke_tracks n : ∀ f v w w', invoke n f v w = Ok w' → tracked w w'.
Proof.
  induction n as [|n IH]; intros f v w w' E; cbn in E; [done|].
  destruct (funs w !! f) as [k|]; [|done].
  by apply (setter_tracks (invoke n) IH k v).
Qed.

(** What the store holds when a setter invocation returns: each field has
    the value of its last [set] during the call, else the value that the
    call itself gave it, else the value it had; the current snapshot is
    the last one installed during the call, else the one the call itself
    installed. *)
Lemma tracked_setter_trace w w' d s k v e t1 t2 :
  tracked w w' →
  console w' =
    console w ++ (d, Swap s) :: (d, EmitField k v) :: t1 ++ (d, EmitAll k e) :: t2 →
  (∀ j, StoreDefinition_get j w'
        = default (if decide (j = k) then v else StoreDefinition_get j w)
            (last_set j (t1 ++ t2)))
  ∧ storeSnapshot (store w') = default s (last_swap (t1 ++ t2)).
Proof.
  intros (t & Ct & G & S) C.
  rewrite C in Ct. apply app_inv_head in Ct. subst t. split.
  - intros j. rewrite G. unfold last_set.
    rewrite !last_omap_cons, !last_omap_app, last_omap_cons.
    unfold set_of at 1 2 3. cbn.
    destruct (decide (j = k)) as [->|Hne].
    + rewrite decide_True by done.
      by destruct (last (omap (set_of k) t2)); destruct (last (omap (set_of k) t1)).
    + rewrite decide_False by done.
      by destruct (last (omap (set_of j) t2)); destruct (last (omap (set_of j) t1)).
  - rewrite S. unfold last_swap.
    rewrite !last_omap_cons, !last_omap_app, last_omap_cons. cbn.
    by destruct (last (omap swap_of t2)); destruct (last (omap swap_of t1)).
Qed.

Lemma invoke_tracked F fuel w f k v :
  wf w → obs_ok F w → F ⊆ fields w →
  StoreDefinition_set k w = Some f →
  2 * size (fields w) < depth w + fuel →
  ∃ w' t1 t2,
    invoke fuel f v w = Ok w'
    ∧ frame F (entry_above (depth w)) (replace_snapshot k v w) w'
    ∧ console w' =
        console w
        ++ (depth w, Swap (MkSnapshot (new_state w)))
           :: (depth w, EmitField k v) :: t1
        ++ (depth w, EmitAll k (Ev k (StoreDefinition_get k w) v)) :: t2
    ∧ (∀ j, StoreDefinition_get j w'
            = default (if decide (j = k) then v else StoreDefinition_get j w)
                (last_set j (t1 ++ t2)))
    ∧ storeSnapshot (store w')
      = default (MkSnapshot (new_state w)) (last_swap (t1 ++ t2)).
Proof.
  intros Hw Ho HF Hf Hn.
  destruct (invoke_spec F fuel w f k v Hw Ho HF Hf Hn)
    as (w' & t1 & t2 & E & R & C & _).
  destruct (tracked_setter_trace w w' _ _ k v _ t1 t2 (invoke_tracks _ _ _ _ _ E) C)
    as [G S].
  by exists w', t1, t2.
Qed.

(** The snapshot that is current after a setter invocation sits on an
    object that did not exist before the call. *)
Lemma invoke_new_snapshot k v w w' :
  grows (replace_snapshot k v w) w' →
  heap w !! state (storeSnapshot (store w')) = None.
Proof.
  intros G. destruct (gr_snapshot _ _ G) as [S|S].
  - rewrite S, replace_snapshot_eq. cbn -[new_state]. apply new_state_fresh.
  - destruct (heap w !! state (storeSnapshot (store w'))) as [o|] eqn:Eo; [|done].
    destruct (replace_snapshot_heap k v w _ _ Eo) as (o' & Ho' & _). congruence.
Qed.

(** * The claims *)


(** With the same subscriber, [set('count')(5)] runs the handler, which
    sets nothing: [get('count')] is [5] when the call returns. *)
Example bump_store_trace :
  ∃ w',
    invoke 5 1%positive (VNum 5) bump_store = Ok w'
    ∧ console w' =
        [(0, Swap (MkSnapshot 2%positive));
         (0, EmitField "count" (VNum 5));
         (1, Deliver (Topic "count") "count" (MkSnapshot 2%positive));
         (0, EmitAll "count" (Ev "count" (VNum 0) (VNum 5)))]
    ∧ StoreDefinition_get "count" w' = VNum 5.
Proof.
  eexists. split; [vm_compute; reflexivity|]. split; by vm_compute.
Qed.








Lemma filter_own_nil d (t : list (nat * action)) :
  Forall (fun e => own_action d e = false) t →
  filter (fun e => own_action d e = true) t = [].
Proof.
  induction 1 as [|e t He _ IH]; [done|].
  rewrite filter_cons_False; [done|]. by rewrite He.
Qed.

Lemma own_action_here d a : is_setter_action a = true → own_action d (d, a) = true.
Proof. intros H. unfold own_action. cbn. by rewrite H, bool_decide_eq_true_2. Qed.



(** C7 (against the emitter as the spec describes it): whatever the
    handlers do with the setters of the store, an invocation of the setter
    for [k] returns normally, with no more than two emissions per field in
    flight at any moment.  If the change of [k] is already being emitted on
    the per-field emitter, the only effect of the per-field [emit] is the
    diagnostic naming the chain up to and including [k]: no subscriber is
    notified; likewise on the all-fields emitter.  The call chains are as
    before when the invocation returns.  The guard is the one the spec
    describes, which does not consult [isDevMode]. *)
Theorem cyclic_set_detected_and_dropped F fuel w f k v :
  wf w → obs_ok F w → F ⊆ fields w →
  StoreDefinition_set k w = Some f →
  2 * size (fields w) < depth w + fuel →
  ∃ w' t1 t2,
    invoke fuel f v w = Ok w'
    ∧ console w' =
        console w
        ++ (depth w, Swap (MkSnapshot (new_state w)))
           :: (depth w, EmitField k v) :: t1
        ++ (depth w, EmitAll k (Ev k (StoreDefinition_get k w) v)) :: t2
    ∧ Forall (fun e => e.1 ≤ 2 * size (fields w)) (t1 ++ t2)
    ∧ (k ∈ callChain (emitter (store w)) → t1 = [cycle_report Fields k w])
    ∧ (k ∈ callChain (alls (store w)) → t2 = [cycle_report Alls k w])
    ∧ callChain (emitter (store w')) = callChain (emitter (store w))
    ∧ callChain (alls (store w')) = callChain (alls (store w)).
Proof.
  intros Hw Ho HF Hf Hn.
  destruct (invoke_spec F fuel w f k v Hw Ho HF Hf Hn)
    as (w' & t1 & t2 & E & R & C & A1 & A2 & A3 & Y1 & Y2 & _).
  exists w', t1, t2. split_and!; try done.
  - eapply Forall_impl; [exact A3|]. intros e [He _].
    rewrite (frame_fields _ _ _ R) in He.
    by rewrite replace_snapshot_eq in He.
  - rewrite (fr_emitter _ _ _ _ R). by rewrite replace_snapshot_eq.
  - rewrite (fr_alls _ _ _ _ R). by rewrite replace_snapshot_eq.
Qed.

Lemma cyclic_set_detected_and_dropped_witness :
  ∃ w' t1 t2,
    invoke 4 1%positive (VNum 7) loop_store_emitting = Ok w'
    ∧ console w' =
        console loop_store_emitting
        ++ (depth loop_store_emitting, Swap (MkSnapshot (new_state loop_store_emitting)))
           :: (depth loop_store_emitting, EmitField "count" (VNum 7)) :: t1
        ++ (depth loop_store_emitting,
            EmitAll "count"
              (Ev "count" (StoreDefinition_get "count" loop_store_emitting) (VNum 7)))
           :: t2
    ∧ Forall (fun e => e.1 ≤ 2 * size (fields loop_store_emitting)) (t1 ++ t2)
    ∧ ("count" ∈ callChain (emitter (store loop_store_emitting)) →
       t1 = [cycle_report Fields "count" loop_store_emitting])
    ∧ ("count" ∈ callChain (alls (store loop_store_emitting)) →
       t2 = [cycle_report Alls "count" loop_store_emitting])
    ∧ callChain (emitter (store w')) = callChain (emitter (store loop_store_emitting))
    ∧ callChain (alls (store w')) = callChain (alls (store loop_store_emitting)).
Proof.
  apply (cyclic_set_detected_and_dropped {["count"]} 4 loop_store_emitting
           1%positive "count" (VNum 7)).
  - apply (wf_push Fields "count" loop_store).
    + apply subscribe_wf, demo_store_wf.
    + apply count_is_field.
    + apply not_elem_of_nil.
  - apply (subscribe_obs_ok {["count"]} Fields (Topic "count") loop_effect demo_store).
    + apply createStore_obs_ok.
    + intros payload. split; [by apply elem_of_singleton|exact I].
  - apply singleton_subseteq_l, count_is_field.
  - by vm_compute.
  - change (fields loop_store_emitting) with (fields demo_store).
    rewrite demo_fields_size. cbn. lia.
Defined.

(** The whole trace of [set('count')(1)] on [loop_store]: the handler's
    re-entrant [set('count')(1)] replaces the snapshot again, its per-field
    emission is reported and dropped, and both all-fields emissions go
    through. *)
Example loop_store_trace :
  ∃ w',
    invoke 5 1%positive (VNum 1) loop_store = Ok w'
    ∧ console w' =
        [(0, Swap (MkSnapshot 2%positive));
         (0, EmitField "count" (VNum 1));
         (1, Deliver (Topic "count") "count" (MkSnapshot 2%positive));
         (1, Swap (MkSnapshot 3%positive));
         (1, EmitField "count" (VNum 1));
         (1, ConsoleError (CYCLE_ERROR_MESSAGE +:+ "count -> count"));
         (1, EmitAll "count" (Ev "count" (VNum 1) (VNum 1)));
         (0, EmitAll "count" (Ev "count" (VNum 0) (VNum 1)))]
    ∧ StoreDefinition_get "count" w' = VNum 1
    ∧ storeSnapshot (store w') = MkSnapshot 3%positive.
Proof.
  eexists. split; [vm_compute; reflexivity|]. split_and!; by vm_compute.
Qed.

(** C4, as stated, fails for a wrapper whose subscribed-field set is
    [null]: [count] is in no recorded set and the wrapper is not subscribed
    to all fields, yet [get('count')] returns the value of the held
    snapshot, not the current one, and the callback is not invoked. *)
Lemma wrapper_null_fields_skips_refetch :
  ∃ w',
    invoke 5 1%positive (VNum 1) demo_store = Ok w'
    ∧ let wr := counting_wrapper (storeSnapshot (store demo_store)) None false in
      isSubscribedToAllFields wr = false
      ∧ StoreDefinition_get "count" w' = VNum 1
      ∧ StoreSnapshotWrapper_get wr "count" w' 0 = (VNum 0, 0)
      ∧ StoreSnapshotWrapper_get wr "count" w' 0
        ≠ (StoreDefinition_get "count" w', onGetOrSet wr "count" 0).
Proof.
  eexists. split; [vm_compute; reflexivity|]. split_and!; by vm_compute.
Qed.

(** The same happens with a subscribed-field object that is not [null]
    when the field is named like a member of [Object.prototype]: the [in]
    test finds the inherited member, so with the empty object [{}] recorded
    [get('valueOf')] returns the value of the held snapshot, not the
    current one, and the callback is not invoked. *)
Example wrapper_inherited_name_skips_refetch :
  ∃ w',
    invoke 5 1%positive (VNum 1) valueOf_store = Ok w'
    ∧ let wr := counting_wrapper (storeSnapshot (store valueOf_store)) (Some ∅) false in
      StoreDefinition_get "valueOf" w' = VNum 1
      ∧ StoreSnapshotWrapper_get wr "valueOf" w' 0 = (VNum 0, 0)
      ∧ StoreSnapshotWrapper_get wr "valueOf" w' 0
        ≠ (StoreDefinition_get "valueOf" w', onGetOrSet wr "valueOf" 0).
Proof.
  eexists. split; [vm_compute; reflexivity|]. split_and!; by vm_compute.
Qed.

(** C4 (amended): for a wrapper that is not subscribed to all fields and
    whose subscribed-field object is not [null], and a key [k] that is
    neither a key of that object nor the name of a member of
    [Object.prototype], [get(k)] invokes the access-recording callback
    once, for [k], and returns the value of [k] in the current state of the
    store definition, whatever the held snapshot says. *)
Theorem wrapper_first_get_records_and_refetches {C} (wr : StoreSnapshotWrapper C)
    (S : gset key) (k : key) (w : world) (c : C) :
  isSubscribedToAllFields wr = false →
  subscribedFields wr = Some S →
  k ∉ S →
  k ∉ Object_prototype →
  StoreSnapshotWrapper_get wr k w c = (StoreDefinition_get k w, onGetOrSet wr k c).
Proof.
  intros Hall Hs Hk Hp. unfold StoreSnapshotWrapper_get.
  rewrite Hall, Hs. unfold missed_subscription, js_in.
  by rewrite !bool_decide_eq_false_2.
Qed.

Lemma wrapper_first_get_witness :
  ∃ w',
    invoke 5 1%positive (VNum 1) demo_store = Ok w'
    ∧ StoreSnapshot_get (storeSnapshot (store demo_store)) "count" w' = VNum 0
    ∧ StoreSnapshotWrapper_get
        (counting_wrapper (storeSnapshot (store demo_store)) (Some {["name"]}) false)
        "count" w' 0
      = (VNum 1, 1).
Proof.
  eexists. split; [vm_compute; reflexivity|]. split; [by vm_compute|].
  rewrite (wrapper_first_get_records_and_refetches _ {["name"]}).
  - by vm_compute.
  - done.
  - done.
  - by apply not_elem_of_singleton.
  - apply (bool_decide_eq_false_1 ("count" ∈ Object_prototype)). by vm_compute.
Defined.

(** C5, as stated, fails: [getState()] copies nothing.  It returns the
    state object of the snapshot itself, which is the object that was
    handed to [createStore], and freezes that object in place. *)
Lemma getState_is_not_a_copy :
  (StoreDefinition_getState demo_store).1 = 1%positive
  ∧ (StoreDefinition_getState demo_store).1 = state (storeSnapshot (store demo_store))
  ∧ dom (heap (StoreDefinition_getState demo_store).2) = dom (heap demo_store)
  ∧ frozen <$> heap demo_store !! 1%positive = Some false
  ∧ frozen <$> heap (StoreDefinition_getState demo_store).2 !! 1%positive = Some true.
Proof. split_and!; by vm_compute. Qed.

(** C5 (amended): [getState()] returns the state object of the current
    snapshot itself, frozen in place; no other object is touched, so the
    objects its properties refer to are not frozen; and assigning a
    property of the returned object, in sloppy or in strict mode, changes
    neither the heap nor what [get] returns. *)
Theorem getState_freezes_in_place (w : world) :
  let r := (StoreDefinition_getState w).1 in
  let w' := (StoreDefinition_getState w).2 in
  r = state (storeSnapshot (store w))
  ∧ (∀ o, heap w !! r = Some o → heap w' !! r = Some (Obj (props o) true))
  ∧ (∀ l, l ≠ r → heap w' !! l = heap w !! l)
  ∧ (∀ j, StoreDefinition_get j w' = StoreDefinition_get j w)
  ∧ ∀ strict k v,
      (js_assign_prop strict r k v (heap w')).1 = heap w'
      ∧ ∀ j, StoreDefinition_get j
               (with_heap (js_assign_prop strict r k v (heap w')).1 w')
             = StoreDefinition_get j w'.
Proof.
  cbn. split_and!.
  - done.
  - intros o Ho. unfold js_freeze. by rewrite lookup_alter_eq, Ho.
  - intros l Hl. unfold js_freeze. by rewrite lookup_alter_ne.
  - intros j. unfold StoreDefinition_get, StoreSnapshot_get, js_get, js_freeze. cbn.
    rewrite lookup_alter_eq. by destruct (heap w !! _).
  - intros strict k v.
    assert ((js_assign_prop strict (state (storeSnapshot (store w))) k v
               (js_freeze (state (storeSnapshot (store w))) (heap w))).1
            = js_freeze (state (storeSnapshot (store w))) (heap w)) as E.
    { unfold js_assign_prop, js_freeze. rewrite lookup_alter_eq.
      by destruct (heap w !! _). }
    split; [exact E|]. intros j. by rewrite E.
Qed.

(** C8: the constructor gives every field [k] of the initial state one
    function object, which captures [k] and no other key; no function
    object is created afterwards, and at any later time [set(k)] returns
    that same function object, whether it is called on the store
    definition, on a snapshot or on a wrapper. *)
Theorem setter_closure_stable {C} (l : loc) (opts : Options) (h : gmap loc obj)
    (w : world) (wr : StoreSnapshotWrapper C) (s : StoreSnapshot) (c : C) (k : key) :
  k ∈ dom (props_of h l) →
  rtc step (createStore l opts h) w →
  ∃ f,
    StoreDefinition_set k (createStore l opts h) = Some f
    ∧ funs w = funs (createStore l opts h)
    ∧ funs w !! f = Some k
    ∧ (∀ k', StoreDefinition_set k' w = Some f → k' = k)
    ∧ StoreDefinition_set k w = Some f
    ∧ StoreSnapshot_set s k w = Some f
    ∧ (StoreSnapshotWrapper_set wr k w c).1 = Some f.
Proof.
  intros Hk Hr. apply rtc_step_stable in Hr as [Hs Hf].
  destruct (mapValues_setters_spec (props_of h l)) as [H1 H2].
  rewrite <- H2 in Hk. apply elem_of_dom in Hk as [f Hkf].
  assert (setters (store (createStore l opts h)) = (mapValues_setters (props_of h l)).1)
    as Et by (by rewrite createStore_eq).
  assert (funs (createStore l opts h) = (mapValues_setters (props_of h l)).2)
    as Ef by (by rewrite createStore_eq).
  exists f. unfold StoreSnapshotWrapper_set, StoreSnapshot_set, StoreDefinition_set.
  cbn. rewrite Hs, Hf, Et, Ef. split_and!; try done.
  - by apply H1.
  - intros k' Hk'. apply H1 in Hk', Hkf. congruence.
Qed.

Lemma setter_closure_stable_witness :
  ∃ f,
    StoreDefinition_set "count" (createStore 1%positive DEFAULT_OPTIONS demo_heap) = Some f
    ∧ funs bump_store_after_set = funs (createStore 1%positive DEFAULT_OPTIONS demo_heap)
    ∧ funs bump_store_after_set !! f = Some "count"
    ∧ (∀ k', StoreDefinition_set k' bump_store_after_set = Some f → k' = "count")
    ∧ StoreDefinition_set "count" bump_store_after_set = Some f
    ∧ StoreSnapshot_set (MkSnapshot 1%positive) "count" bump_store_after_set = Some f
    ∧ (StoreSnapshotWrapper_set (counting_wrapper (MkSnapshot 1%positive) None false)
         "count" bump_store_after_set 0).1 = Some f.
Proof.
  apply (setter_closure_stable 1%positive DEFAULT_OPTIONS demo_heap).
  - apply elem_of_dom. by eexists.
  - eapply rtc_l; [apply (step_subscribe Fields (Topic "count") bump_effect)|].
    apply rtc_once. apply (step_set 5 "count" (VNum 1)).
    vm_compute. reflexivity.
Defined.

(** C9: [on(k)] and [onAll()] on a wrapper return the stream that the store
    definition's own [on(k)] and [onAll()] return, that is the stream of
    topic [k] of its per-field emitter and the stream of all topics of its
    all-fields emitter, and leave the consumer's state as it is: neither
    access-recording callback is invoked. *)
Theorem wrapper_on_passes_through {C} (wr : StoreSnapshotWrapper C) (k : key) (c : C) :
  StoreSnapshotWrapper_on wr k c = (StoreDefinition_on k, c)
  ∧ StoreSnapshotWrapper_onAll wr c = (StoreDefinition_onAll, c)
  ∧ StoreDefinition_on k = Emitter_on TheEmitter k
  ∧ StoreDefinition_onAll = Emitter_all TheAlls.
Proof. done. Qed.

(** C10: a wrapper constructed with [subscribedFields = null] and
    [isSubscribedToAllFields = false] answers every [get(k)] from the
    snapshot it holds, whatever the current state of the store, and does
    not invoke the access-recording callback. *)
Theorem wrapper_null_fields_reads_held_snapshot {C} (s : StoreSnapshot)
    (onGetOrSet : key -> C -> C) (onGetAll : C -> C) (k : key) (w : world) (c : C) :
  StoreSnapshotWrapper_get (MkWrapper s onGetOrSet onGetAll None false) k w c
  = (StoreSnapshot_get s k w, c).
Proof. done. Qed.

(** * Further properties of the store *)

(** ** What a setter invocation does to the heap *)

(** X1: after any setter invocation the current snapshot sits on a state
    object that did not exist before the call, whatever the handlers did
    in between: [getState()] after the call is never the object that
    [getState()] returned before it. *)
Theorem set_installs_new_state_object F fuel w f k v :
  wf w → obs_ok F w → F ⊆ fields w →
  StoreDefinition_set k w = Some f →
  2 * size (fields w) < depth w + fuel →
  ∃ w',
    invoke fuel f v w = Ok w'
    ∧ heap w !! state (storeSnapshot (store w')) = None
    ∧ is_Some (heap w' !! state (storeSnapshot (store w')))
    ∧ (StoreDefinition_getState w').1 ≠ (StoreDefinition_getState w).1.
Proof.
  intros Hw Ho HF Hf Hn.
  destruct (invoke_history F fuel w f k v Hw Ho HF Hf Hn) as (w' & E & R & G).
  pose proof (invoke_new_snapshot k v w w' G) as Hnew.
  exists w'. split_and!; [done|done| |].
  - destruct (wf_state _ (fr_wf _ _ _ _ R)) as (o & Ho' & _). eauto.
  - cbn. intros Heq. destruct (wf_state _ Hw) as (o & Ho' & _).
    rewrite Heq in Hnew. congruence.
Qed.

Lemma set_installs_new_state_object_witness :
  ∃ w',
    invoke 5 1%positive (VNum 1) bump_store = Ok w'
    ∧ heap bump_store !! state (storeSnapshot (store w')) = None
    ∧ is_Some (heap w' !! state (storeSnapshot (store w')))
    ∧ (StoreDefinition_getState w').1 ≠ (StoreDefinition_getState bump_store).1.
Proof.
  destruct bump_store_ready as (H1 & H2 & H3 & H4).
  apply (set_installs_new_state_object {["count"]} 5 bump_store 1%positive
           "count" (VNum 1) H1 H2 H3); [by vm_compute|exact H4].
Defined.

(** X2: a setter invocation freezes the state object that was current when
    it was called, and leaves its properties as they were: from then on an
    assignment to that object, the one handed to [createStore] included,
    changes nothing. *)
Theorem set_freezes_previous_state F fuel w f k v :
  wf w → obs_ok F w → F ⊆ fields w →
  StoreDefinition_set k w = Some f →
  2 * size (fields w) < depth w + fuel →
  ∃ w' o o',
    invoke fuel f v w = Ok w'
    ∧ heap w !! state (storeSnapshot (store w)) = Some o
    ∧ heap w' !! state (storeSnapshot (store w)) = Some o'
    ∧ props o' = props o
    ∧ frozen o' = true
    ∧ ∀ strict j u,
        (js_assign_prop strict (state (storeSnapshot (store w))) j u (heap w')).1
        = heap w'.
Proof.
  intros Hw Ho HF Hf Hn.
  destruct (invoke_history F fuel w f k v Hw Ho HF Hf Hn) as (w' & E & R & G).
  destruct (wf_state _ Hw) as (o & Hst & _).
  pose proof (replace_snapshot_frozen k v w o Hst) as Hfr.
  destruct (gr_heap _ _ G _ _ Hfr) as (o' & Ho' & Hp & Hz).
  exists w', o, o'. split_and!; try done.
  - by apply Hz.
  - intros strict j u. unfold js_assign_prop. rewrite Ho'.
    by rewrite (Hz eq_refl).
Qed.

Lemma set_freezes_previous_state_witness :
  ∃ w' o o',
    invoke 5 1%positive (VNum 1) bump_store = Ok w'
    ∧ heap bump_store !! state (storeSnapshot (store bump_store)) = Some o
    ∧ heap w' !! state (storeSnapshot (store bump_store)) = Some o'
    ∧ props o' = props o
    ∧ frozen o' = true
    ∧ ∀ strict j u,
        (js_assign_prop strict (state (storeSnapshot (store bump_store))) j u
           (heap w')).1
        = heap w'.
Proof.
  destruct bump_store_ready as (H1 & H2 & H3 & H4).
  apply (set_freezes_previous_state {["count"]} 5 bump_store 1%positive
           "count" (VNum 1) H1 H2 H3); [by vm_compute|exact H4].
Defined.



(** ** Stores in use *)

Lemma client_step_at_rest F K w w' :
  at_rest F K w → client_step F w w' → at_rest F K w' ∧ keeps_objects w w'.
Proof.
  intros (Hw & Ho & HF & Hd & Hf & Hsh) Hs.
  destruct Hs as [P c t handler w Hh|fuel k v w w' E|w].
  - split; [|by destruct c; intros l o Hl; eauto].
    split_and!; [by apply subscribe_wf|by apply subscribe_obs_ok|done| | |].
    + by rewrite subscribe_depth.
    + by rewrite subscribe_fields.
    + by rewrite subscribe_shape.
  - assert (F ⊆ fields w) as HF1 by (by rewrite Hf).
    destruct (set_field_returned F fuel k v w w' Hw Ho HF1 E) as [R G].
    destruct (frame_next F _ k v w w' Hw Ho R) as (Hw2 & Ho2 & Hf2 & Hd2 & _).
    split.
    + split_and!; try done; try congruence.
      rewrite (gr_shape _ _ G), replace_snapshot_shape; [done|].
      unfold set_field in E.
      destruct (StoreDefinition_set k w) as [f|] eqn:Ef; [|done].
      by apply (wf_keyed w Hw k f).
    + intros l o Hl. destruct (replace_snapshot_heap k v w _ _ Hl) as (o1 & H1 & P1).
      destruct (fr_heap _ _ _ _ R _ _ H1) as (o2 & H2 & P2).
      exists o2. split; [done|congruence].
  - split.
    + split_and!; try done; [by apply getState_wf|by rewrite getState_shape].
    + intros l o Hl. cbn. unfold js_freeze. rewrite lookup_alter.
      case_decide; subst; rewrite Hl; eauto.
Qed.

Lemma createStore_at_rest F l opts h :
  is_Some (h !! l) → F ⊆ dom (props_of h l) →
  at_rest F (dom (props_of h l)) (createStore l opts h).
Proof.
  intros Hl HF. split_and!.
  - by apply createStore_wf.
  - apply createStore_obs_ok.
  - done.
  - apply createStore_depth.
  - apply createStore_fields.
  - apply createStore_shape.
Qed.



(** X5: a snapshot is a constant view: whatever a client does next with
    the store (subscribing, setting fields, calling [getState()]), every
    snapshot whose state object exists keeps reading the same value at
    every key. *)
Theorem snapshots_never_change F K w w' s j :
  at_rest F K w →
  rtc (client_step F) w w' →
  is_Some (heap w !! state s) →
  StoreSnapshot_get s j w' = StoreSnapshot_get s j w.
Proof.
  intros Hi Hr [o Ho].
  assert (at_rest F K w' ∧ keeps_objects w w') as [_ Hk].
  { revert w' Hr. apply rtc_ind_r.
    - split; [done|]. intros l o' Hl. eauto.
    - intros w1 w2 _ Hs [Hi1 Hk1].
      destruct (client_step_at_rest F K w1 w2 Hi1 Hs) as [Hi2 Hk2].
      split; [done|]. intros l o1 Hl.
      destruct (Hk1 _ _ Hl) as (o2 & H2 & P2).
      destruct (Hk2 _ _ H2) as (o3 & H3 & P3).
      exists o3. split; [done|congruence]. }
  destruct (Hk _ _ Ho) as (o' & Ho' & Hp).
  unfold StoreSnapshot_get, js_get. by rewrite Ho, Ho', Hp.
Qed.

Lemma snapshots_never_change_witness :
  StoreSnapshot_get (MkSnapshot 1%positive) "count" bump_store_after_set
  = StoreSnapshot_get (MkSnapshot 1%positive) "count" bump_store.
Proof.
  apply (snapshots_never_change {["count"]} (dom (props_of demo_heap 1%positive))).
  - destruct bump_store_ready as (H1 & H2 & _ & _).
    split_and!; [exact H1|exact H2| |reflexivity| |].
    + apply singleton_subseteq_l. apply elem_of_dom. by eexists.
    + unfold bump_store. rewrite subscribe_fields. apply demo_store_fields.
    + unfold bump_store. rewrite subscribe_shape. apply createStore_shape.
  - apply rtc_once. apply (client_set {["count"]} 5 "count" (VNum 1)).
    vm_compute. reflexivity.
  - by eexists.
Defined.

(** X6: at any time after construction, [set(k)] is a setter of the store
    exactly for the keys of the object that was handed to [createStore];
    for any other key that is not the name of a member of
    [Object.prototype] it is [undefined], and calling it raises instead of
    adding the key to the state. *)
Theorem setter_exists_iff_initial_key l opts h w k :
  rtc step (createStore l opts h) w →
  (is_Some (StoreDefinition_set k w) ↔ k ∈ dom (props_of h l))
  ∧ (k ∉ dom (props_of h l) → k ∉ Object_prototype →
     StoreDefinition_set k w = None
     ∧ ∀ fuel v, set_field fuel k v w
                 = Throw "TypeError: store.set(...) is not a function").
Proof.
  intros Hr. apply rtc_step_stable in Hr as [Hs _].
  assert (dom (setters (store w)) = dom (props_of h l)) as Hd.
  { rewrite Hs. apply createStore_fields. }
  unfold StoreDefinition_set. split.
  - by rewrite <- Hd, elem_of_dom.
  - intros Hk _. rewrite <- Hd in Hk. apply not_elem_of_dom in Hk.
    split; [done|]. intros fuel v. unfold set_field, StoreDefinition_set.
    by rewrite Hk.
Qed.

Lemma setter_exists_iff_initial_key_witness :
  (is_Some (StoreDefinition_set "total" bump_store_after_set)
   ↔ "total" ∈ dom (props_of demo_heap 1%positive))
  ∧ ("total" ∉ dom (props_of demo_heap 1%positive) → "total" ∉ Object_prototype →
     StoreDefinition_set "total" bump_store_after_set = None
     ∧ ∀ fuel v, set_field fuel "total" v bump_store_after_set
                 = Throw "TypeError: store.set(...) is not a function").
Proof.
  apply (setter_exists_iff_initial_key 1%positive DEFAULT_OPTIONS demo_heap).
  eapply rtc_l; [apply (step_subscribe Fields (Topic "count") bump_effect)|].
  apply rtc_once. apply (step_set 5 "count" (VNum 1)).
  vm_compute. reflexivity.
Defined.

(** X7: [createStore] neither copies nor freezes the object it is handed.
    Its [get] reads that very object, so an assignment to the object made
    after construction, to any property but [__proto__], shows through
    [get], also for a key that the object did not have; such a key has no
    setter (it is [undefined] unless the key is the name of a member of
    [Object.prototype]).  Once [getState()] has been called the same
    assignment changes nothing. *)
Theorem createStore_aliases_initial_state l opts h o strict k v :
  h !! l = Some o →
  frozen o = false →
  k ≠ "__proto__" →
  (∀ j, StoreDefinition_get j (createStore l opts h) = js_get h l j)
  ∧ StoreDefinition_get k (assign_prop strict l k v (createStore l opts h)) = v
  ∧ setters (store (assign_prop strict l k v (createStore l opts h)))
    = setters (store (createStore l opts h))
  ∧ (k ∉ dom (props o) → k ∉ Object_prototype →
     StoreDefinition_set k (assign_prop strict l k v (createStore l opts h)) = None)
  ∧ ∀ j, StoreDefinition_get j
           (assign_prop strict l k v
              (StoreDefinition_getState (createStore l opts h)).2)
         = js_get h l j.
Proof.
  intros Ho Hz _. rewrite createStore_eq.
  unfold assign_prop, StoreDefinition_get, StoreSnapshot_get, StoreDefinition_set.
  cbn. split_and!.
  - done.
  - unfold js_assign_prop, js_get, js_lookup. rewrite Ho, Hz. cbn.
    rewrite lookup_insert_eq. cbn. by rewrite lookup_insert_eq.
  - done.
  - intros Hk _. apply not_elem_of_dom.
    destruct (mapValues_setters_spec (props_of h l)) as [_ Hd].
    rewrite Hd. unfold props_of. by rewrite Ho.
  - intros j. unfold js_assign_prop, js_freeze, js_get.
    rewrite !lookup_alter_eq, Ho. cbn. by rewrite lookup_alter_eq, Ho.
Qed.

Lemma createStore_aliases_initial_state_witness :
  (∀ j, StoreDefinition_get j (createStore 1%positive DEFAULT_OPTIONS demo_heap)
        = js_get demo_heap 1%positive j)
  ∧ StoreDefinition_get "total"
      (assign_prop false 1%positive "total" (VNum 9)
         (createStore 1%positive DEFAULT_OPTIONS demo_heap))
    = VNum 9
  ∧ setters (store (assign_prop false 1%positive "total" (VNum 9)
                      (createStore 1%positive DEFAULT_OPTIONS demo_heap)))
    = setters (store (createStore 1%positive DEFAULT_OPTIONS demo_heap))
  ∧ ("total" ∉ dom (props (Obj {[ "count" := VNum 0; "name" := VStr "x" ]} false)) →
     "total" ∉ Object_prototype →
     StoreDefinition_set "total"
       (assign_prop false 1%positive "total" (VNum 9)
          (createStore 1%positive DEFAULT_OPTIONS demo_heap))
     = None)
  ∧ ∀ j, StoreDefinition_get j
           (assign_prop false 1%positive "total" (VNum 9)
              (StoreDefinition_getState
                 (createStore 1%positive DEFAULT_OPTIONS demo_heap)).2)
         = js_get demo_heap 1%positive j.
Proof.
  apply (createStore_aliases_initial_state 1%positive DEFAULT_OPTIONS demo_heap
           (Obj {[ "count" := VNum 0; "name" := VStr "x" ]} false)
           false "total" (VNum 9)); [reflexivity|reflexivity|done].
Defined.

(** X8: [getState()] on any snapshot, current or not, returns the state
    object of that snapshot; it changes what no snapshot reads; and a
    second call returns the same object and changes nothing at all. *)
Theorem getState_is_idempotent (s : StoreSnapshot) (w : world) :
  let r := (StoreSnapshot_getState s w).1 in
  let w' := (StoreSnapshot_getState s w).2 in
  r = state s
  ∧ (∀ s' j, StoreSnapshot_get s' j w' = StoreSnapshot_get s' j w)
  ∧ StoreSnapshot_getState s w' = (r, w').
Proof.
  cbn. split_and!.
  - done.
  - intros s' j. unfold StoreSnapshot_get, js_get, js_freeze. cbn.
    rewrite lookup_alter. case_decide as E; [|done].
    rewrite <- E. by destruct (heap w !! state s).
  - unfold StoreSnapshot_getState, with_heap. cbn. do 2 f_equal.
    unfold js_freeze. apply map_eq. intros l.
    rewrite !lookup_alter. case_decide; [|done].
    rewrite decide_True by done. by destruct (heap w !! state s).
Qed.

(** ** Wrappers over a store in use *)

(** X9: a wrapper over the snapshot that is current reads what the store
    reads, at every key and whatever it is subscribed to: the three paths
    of [get] differ in what they record, not in the value. *)
Theorem fresh_wrapper_get_is_live {C} (wr : StoreSnapshotWrapper C)
    (k : key) (w : world) (c : C) :
  snapshot wr = storeSnapshot (store w) →
  (StoreSnapshotWrapper_get wr k w c).1 = StoreDefinition_get k w.
Proof.
  intros Hs. unfold StoreSnapshotWrapper_get, StoreDefinition_get.
  rewrite Hs. by destruct (negb _ && _).
Qed.

Lemma fresh_wrapper_get_is_live_witness :
  (StoreSnapshotWrapper_get subscribed_wrapper "name" bump_store 0).1
  = StoreDefinition_get "name" bump_store.
Proof. by apply (fresh_wrapper_get_is_live subscribed_wrapper). Defined.





(** X12: [getState()] on a wrapper records an access to all fields, never
    an access to one key, and does not look at the store: after a [set] it
    returns the state object of the snapshot that the wrapper holds, which
    still has the old value at [k], and what the store reads is
    unchanged. *)
Theorem wrapper_getState_returns_held_state {C} F fuel w f k v
    (wr : StoreSnapshotWrapper C) (c : C) :
  wf w → obs_ok F w → F ⊆ fields w →
  StoreDefinition_set k w = Some f →
  2 * size (fields w) < depth w + fuel →
  snapshot wr = storeSnapshot (store w) →
  ∃ w',
    invoke fuel f v w = Ok w'
    ∧ (StoreSnapshotWrapper_getState wr w' c).1.1 = state (storeSnapshot (store w))
    ∧ (StoreSnapshotWrapper_getState wr w' c).1.1 ≠ state (storeSnapshot (store w'))
    ∧ (StoreSnapshotWrapper_getState wr w' c).2 = onGetAll wr c
    ∧ js_get (heap (StoreSnapshotWrapper_getState wr w' c).1.2)
        (StoreSnapshotWrapper_getState wr w' c).1.1 k
      = StoreDefinition_get k w
    ∧ ∀ j, StoreDefinition_get j (StoreSnapshotWrapper_getState wr w' c).1.2
           = StoreDefinition_get j w'.
Proof.
  intros Hw Ho HF Hf Hn Hs.
  destruct (invoke_history F fuel w f k v Hw Ho HF Hf Hn) as (w' & E & R & G).
  destruct (wf_state _ Hw) as (o & Hst & _).
  destruct (replace_snapshot_heap k v w _ _ Hst) as (o1 & H1 & P1).
  destruct (fr_heap _ _ _ _ R _ _ H1) as (o2 & H2 & P2).
  exists w'. unfold StoreSnapshotWrapper_getState, StoreSnapshot_getState.
  cbn. rewrite Hs. split_and!; try done.
  - intros Heq.
    assert (heap w !! state (storeSnapshot (store w')) = None) as Hnew.
    { destruct (gr_snapshot _ _ G) as [S|S].
      - rewrite S, replace_snapshot_eq. cbn -[new_state]. apply new_state_fresh.
      - destruct (heap w !! state (storeSnapshot (store w'))) as [o3|] eqn:Eo; [|done].
        destruct (replace_snapshot_heap k v w _ _ Eo) as (o4 & Ho4 & _). congruence. }
    rewrite <- Heq in Hnew. congruence.
  - unfold StoreDefinition_get, StoreSnapshot_get, js_get, js_freeze.
    rewrite lookup_alter_eq, H2, Hst. cbn. by rewrite P2, P1.
  - intros j. unfold StoreDefinition_get, StoreSnapshot_get, js_get, js_freeze. cbn.
    rewrite lookup_alter. case_decide as Ed; [|done].
    rewrite <- Ed, H2. cbn. done.
Qed.

Lemma wrapper_getState_returns_held_state_witness :
  ∃ w',
    invoke 5 1%positive (VNum 1) bump_store = Ok w'
    ∧ (StoreSnapshotWrapper_getState subscribed_wrapper w' 0).1.1
      = state (storeSnapshot (store bump_store))
    ∧ (StoreSnapshotWrapper_getState subscribed_wrapper w' 0).1.1
      ≠ state (storeSnapshot (store w'))
    ∧ (StoreSnapshotWrapper_getState subscribed_wrapper w' 0).2
      = onGetAll subscribed_wrapper 0
    ∧ js_get (heap (StoreSnapshotWrapper_getState subscribed_wrapper w' 0).1.2)
        (StoreSnapshotWrapper_getState subscribed_wrapper w' 0).1.1 "count"
      = StoreDefinition_get "count" bump_store
    ∧ ∀ j, StoreDefinition_get j (StoreSnapshotWrapper_getState subscribed_wrapper w' 0).1.2
           = StoreDefinition_get j w'.
Proof.
  destruct bump_store_ready as (H1 & H2 & H3 & H4).
  apply (wrapper_getState_returns_held_state {["count"]} 5 bump_store
           1%positive "count" (VNum 1) subscribed_wrapper 0 H1 H2 H3).
  - by vm_compute.
  - exact H4.
  - reflexivity.
Defined.

(** ** Sequences of sets *)

(** A setter invocation, with what the store reads afterwards at the keys
    that no handler sets, and with what the next invocation needs. *)
Lemma invoke_reads F fuel w f k v :
  wf w → obs_ok F w → F ⊆ fields w →
  StoreDefinition_set k w = Some f →
  2 * size (fields w) < depth w + fuel →
  ∃ w',
    invoke fuel f v w = Ok w'
    ∧ (∀ j, j ∉ F →
            StoreDefinition_get j w' = if decide (j = k) then v else StoreDefinition_get j w)
    ∧ keeps_objects w w'
    ∧ wf w' ∧ obs_ok F w' ∧ fields w' = fields w ∧ depth w' = depth w
    ∧ setters (store w') = setters (store w).
Proof.
  intros Hw Ho HF Hf Hn.
  destruct (invoke_history F fuel w f k v Hw Ho HF Hf Hn) as (w' & E & R & G).
  destruct (frame_next F _ k v w w' Hw Ho R) as (H1 & H2 & H3 & H4 & H5).
  exists w'. split_and!; try done.
  - intros j Hj. by rewrite (fr_get _ _ _ _ R j Hj), replace_snapshot_get.
  - intros l o Hl. destruct (replace_snapshot_heap k v w _ _ Hl) as (o1 & E1 & P1).
    destruct (fr_heap _ _ _ _ R _ _ E1) as (o2 & E2 & P2).
    exists o2. split; [done|congruence].
Qed.




